(** * Streamlit keepalive scripts: a shallow embedding and its properties

    The repository holds two Node.js scripts that visit a hosted Streamlit
    application and dismiss its wake-up interstitial:

    - the retrying script (221 lines, [Module Retrying]): polling locator,
      readiness race, bounded retries with exponential backoff;
    - [.github/scripts/keepalive.js] ([Module Keepalive]): a single pass over
      the page and its frames.

    Both are written against the puppeteer driver.  The driver is modelled as
    an arbitrary deterministic transition system answering the calls the
    scripts issue, each with a promise or with an exception thrown on the
    spot; the scripts are functions in a state-and-outcome monad whose
    state carries the driver's world, the clock read by [Date.now()], the
    [browser] variable and a trace of what the script did. *)

From Stdlib Require Import ZArith String Ascii List Bool Lia DecimalString.
Import ListNotations.
Open Scope string_scope.
Open Scope Z_scope.

(** ** JavaScript values used by the scripts *)

Module JS.

(** Template-literal rendering of an integer. *)
Definition string_of_Z (z : Z) : string := NilZero.string_of_int (Z.to_int z).

Definition nl : string := String (ascii_of_nat 10) EmptyString.
Definition dquote : string := String (ascii_of_nat 34) EmptyString.

(** [Array.prototype.join]. *)
Definition join (sep : string) (parts : list string) : string :=
  String.concat sep parts.

(** [String.prototype.includes]: [sub] occurs somewhere in [s]. *)
Fixpoint includes (s sub : string) : bool :=
  String.prefix sub s ||
  match s with
  | EmptyString => false
  | String _ rest => includes rest sub
  end.

(** An [Error] object: its [name] and its [message]. *)
Record Error := mkError { name : string; message : string }.

Definition new_Error (msg : string) : Error := mkError "Error" msg.

(** [Error.prototype.toString]. *)
Definition Error_toString (e : Error) : string :=
  if (name e =? EmptyString)%string then message e
  else if (message e =? EmptyString)%string then name e
  else name e ++ ": " ++ message e.

(** Truthiness of a string (the empty string is falsy). *)
Definition truthy_string (s : string) : bool := negb (s =? EmptyString)%string.

(** Truthiness of an environment variable: unset or empty is falsy. *)
Definition truthy (o : option string) : bool :=
  match o with
  | Some s => truthy_string s
  | None => false
  end.

(** [o || dflt] on a possibly unset string. *)
Definition or_else (o : option string) (dflt : string) : string :=
  match o with
  | Some s => if truthy_string s then s else dflt
  | None => dflt
  end.

End JS.
Import JS.

(** ** The driver surface *)

Record Frame := mkFrame { frame_id : nat; frame_url : string }.

(** A browsing context: the page itself or one of its frames. *)
Inductive Ctx :=
| CtxPage
| CtxFrame (f : Frame).

(** Element handles are opaque to the scripts. *)
Definition ElementHandle := nat.

(** Only the nullness of a bounding box is inspected. *)
Record Box := mkBox { box_x : Z; box_y : Z; box_width : Z; box_height : Z }.

Record Response := mkResponse { status : Z; statusText : string }.

(** The calls the scripts issue to puppeteer and to [fs], with the arguments
    the scripts choose; options that are constants of the call site and that
    only the driver reads ([headless], [waitUntil], the scroll alignment) are
    left out. *)
Inductive Call :=
| Launch
| NewPage
| SetUserAgent (ua : string)
| SetViewport (width height : Z)
| Goto (url : option string) (timeout : Z)
| Frames
| Query (ctx : Ctx) (selector : string)
| ScrollIntoView (el : ElementHandle)
| BoundingBox (el : ElementHandle)
| IsIntersectingViewport (el : ElementHandle)
| Click (el : ElementHandle) (delay : Z)
| WaitForFunction (ctx : Ctx) (selector : string) (timeout : Z)
| WaitForNavigation (timeout : Z)
| AppendFile (path : string) (text : string)
| Close.

(** What each call resolves to. *)
Definition Res (c : Call) : Type :=
  match c with
  | Goto _ _ => option Response
  | Frames => list Frame
  | Query _ _ => option ElementHandle
  | BoundingBox _ => option Box
  | IsIntersectingViewport _ => bool
  | _ => unit
  end.

Inductive Settled (A : Type) :=
| Resolved (a : A)
| Rejected (e : Error).
Arguments Resolved {A} a.
Arguments Rejected {A} e.

(** A promise, seen from the instant it is created: how long it takes to
    settle, and how it settles. *)
Record Promise (A : Type) := mkPromise { took : N; settled : Settled A }.
Arguments mkPromise {A} took settled.
Arguments took {A} p.
Arguments settled {A} p.

(** What a driver call gives its caller at once: the promise, or an
    exception thrown before any promise exists. *)
Inductive Reply (A : Type) :=
| Returns (p : Promise A)
| Throws (e : Error).
Arguments Returns {A} p.
Arguments Throws {A} e.

(** How a call ends for a caller that awaits it on the spot: for such a
    caller a call that throws is a call whose promise is rejected. *)
Definition ending {A} (r : Reply A) : Settled A :=
  match r with
  | Returns p => settled p
  | Throws e => Rejected e
  end.

(** ** What a run leaves behind *)

Inductive Level := LLog | LWarn | LError.

(** The call sites of [sleep]; the site is recorded, it changes nothing. *)
Inductive SleepSite :=
| PageLoadGrace
| PollInterval
| ClickSettle
| ReadyGrace
| RetryBackoff.

(** What the locator saw in one context. *)
Inductive Probe :=
| NoMatch
| Match (el : ElementHandle) (box : option Box) (inViewport : bool).

(** How one pass of the attempt loop ended before the loop decides. *)
Inductive AttemptOutcome :=
| NoControlFound
| ClickedAndConfirmedGone (label : string)
| ClickedButStillPresent (label : string).

(** What a trace is made of: console output, sleeps, driver calls with the way
    they end (a call that throws before it returns a promise is recorded as
    rejected with the error thrown), and three records of program points that issue no
    call: what the locator saw in a context (after line 114, or line 107 when
    the query finds nothing), the assignment of [clicked] (line 120), and the
    end of an attempt once [buttonStillThere] is known (line 137 or 187). *)
Inductive Event :=
| EvConsole (lvl : Level) (msg : string) (obj : option Error)
| EvSleep (site : SleepSite) (ms : Z)
| EvCall (c : Call) (s : Settled (Res c))
| EvProbe (ctx : Ctx) (label : string) (p : Probe)
| EvClicked (label : string) (ctx : Ctx)
| EvAttempt (attempt : Z) (o : AttemptOutcome).

(** How a computation ends. [Exit] is [process.exit]: the process stops there,
    so no [catch] handler and no [finally] clause of any caller runs. [Spent]
    marks a loop model that ran out of iterations; the scripts never reach
    it. *)
Inductive Outcome (A : Type) :=
| Val (a : A)
| Throw (e : Error)
| Exit (code : Z)
| Spent.
Arguments Val {A} a.
Arguments Throw {A} e.
Arguments Exit {A} code.
Arguments Spent {A}.

(** The process environment read at start-up. *)
Record Env := mkEnv { STREAMLIT_URL : option string; GITHUB_STEP_SUMMARY : option string }.

(** ** The monad the scripts run in *)

Section Machine.

Context {W : Type}.

(** The driver's world, the clock in milliseconds, the variable [browser]
    of the script, and what happened so far, oldest first. *)
Record State := mkState {
  world : W;
  clock : Z;
  browser : option unit;
  trace : list Event
}.

Definition M (A : Type) : Type := State -> Outcome A * State.

Definition ret {A} (a : A) : M A := fun st => (Val a, st).

Definition bind {A B} (m : M A) (k : A -> M B) : M B :=
  fun st =>
    match m st with
    | (Val a, st') => k a st'
    | (Throw e, st') => (Throw e, st')
    | (Exit c, st') => (Exit c, st')
    | (Spent, st') => (Spent, st')
    end.

Definition throw {A} (e : Error) : M A := fun st => (Throw e, st).
Definition process_exit {A} (code : Z) : M A := fun st => (Exit code, st).
Definition spent {A} : M A := fun st => (Spent, st).

(** Record an event. *)
Definition emit (e : Event) : M unit :=
  fun st => (Val tt, mkState (world st) (clock st) (browser st) (trace st ++ [e])).

(** Let [ms] milliseconds pass; time does not go back. *)
Definition advance (ms : Z) : M unit :=
  fun st => (Val tt, mkState (world st) (clock st + Z.max 0 ms) (browser st) (trace st)).

Definition Date_now : M Z := fun st => (Val (clock st), st).

Definition set_browser (b : option unit) : M unit :=
  fun st => (Val tt, mkState (world st) (clock st) b (trace st)).

Definition get_browser : M (option unit) := fun st => (Val (browser st), st).

(** [try { body } catch (e) { handler e }] *)
Definition try_catch {A} (body : M A) (handler : Error -> M A) : M A :=
  fun st =>
    match body st with
    | (Throw e, st') => handler e st'
    | r => r
    end.

(** [try { body } finally { fin }] *)
Definition try_finally {A} (body : M A) (fin : M unit) : M A :=
  fun st =>
    match body st with
    | (Val a, st') => bind fin (fun _ => ret a) st'
    | (Throw e, st') => bind fin (fun _ => throw e) st'
    | (Exit c, st') => (Exit c, st')
    | (Spent, st') => (Spent, st')
    end.

End Machine.

Arguments State W : clear implicits.
Arguments M W A : clear implicits.

Declare Scope js_scope.
Delimit Scope js_scope with js.
Notation "x <- m ;; k" := (bind m (fun x => k))
  (at level 61, m at next level, right associativity) : js_scope.
Notation "m ;; k" := (bind m (fun _ => k))
  (at level 61, right associativity) : js_scope.
Open Scope js_scope.

(** ** Primitives shared by the two scripts *)

Section Primitives.

Context {W : Type}.
Variable driver : forall c : Call, W -> Reply (Res c) * W.
Variable env : Env.

(** Issue a driver call: the call is recorded together with the way it ends
    and the world moves; the caller holds the promise, or is thrown the
    exception of a call that fails before it returns one. *)
Definition start (c : Call) : M W (Promise (Res c)) :=
  fun st =>
    let (r, w') := driver c (world st) in
    (match r with
     | Returns p => Val p
     | Throws e => Throw e
     end,
     mkState w' (clock st) (browser st) (trace st ++ [EvCall c (ending r)])).

(** [await p] *)
Definition await {A} (p : Promise A) : M W A :=
  advance (Z.of_N (took p));;
  match settled p with
  | Resolved a => ret a
  | Rejected e => throw e
  end.

(** [await c(...)] *)
Definition drive (c : Call) : M W (Res c) :=
  p <- start c;; await p.

(** [p.catch(() => null)] *)
Definition catch_null {A} (p : Promise A) : Promise (option A) :=
  mkPromise (took p)
    match settled p with
    | Resolved a => Resolved (Some a)
    | Rejected _ => Resolved None
    end.

(** [Promise.race([p1, p2])]: the first to settle decides. *)
Definition Promise_race {A} (p1 p2 : Promise A) : Promise A :=
  if (took p2 <? took p1)%N then p2 else p1.

(** [const sleep = (ms) => new Promise((resolve) => setTimeout(resolve, ms))],
    awaited. *)
Definition sleep (site : SleepSite) (ms : Z) : M W unit :=
  emit (EvSleep site ms);; advance ms.

(** [console.log(msg)], [console.warn(msg)], [console.error(msg, obj)];
    [console.error(err)] is recorded with an empty text. *)
Definition console_log (msg : string) : M W unit := emit (EvConsole LLog msg None).
Definition console_warn (msg : string) : M W unit := emit (EvConsole LWarn msg None).
Definition console_error (msg : string) (obj : option Error) : M W unit :=
  emit (EvConsole LError msg obj).

Definition buildFailureSummary (lines : list string) : string :=
  join nl
    (["### Streamlit keepalive failed"; EmptyString]
       ++ map (fun line => "- " ++ line) lines
       ++ [EmptyString]).

Definition appendFailureSummary (lines : list string) : M W unit :=
  if negb (truthy (GITHUB_STEP_SUMMARY env)) then
    console_warn "GITHUB_STEP_SUMMARY is not set; skipping summary output."
  else
    try_catch
      (drive (AppendFile (or_else (GITHUB_STEP_SUMMARY env) EmptyString) (buildFailureSummary lines)))
      (fun writeError => console_error "Failed to write failure summary:" (Some writeError)).

(** The lines [fail] hands to the summary. *)
Definition failure_lines (reason : string) (err : option Error) : list string :=
  [ "URL: " ++ or_else (STREAMLIT_URL env) "not set";
    "Reason: " ++ reason ]
    ++ match err with
       | Some e =>
           [ "Error: " ++ (if truthy_string (message e) then message e else Error_toString e) ]
       | None => []
       end.

(** [fail] does not return: it ends in [process.exit(1)]. *)
Definition fail {A} (reason : string) (err : option Error) : M W A :=
  console_error reason None;;
  match err with
  | Some e => console_error EmptyString (Some e)
  | None => ret tt
  end;;
  appendFailureSummary (failure_lines reason err);;
  process_exit 1.

(** The [finally] clause of both scripts. *)
Definition close_browser : M W unit :=
  b <- get_browser;;
  match b with
  | Some _ =>
      try_catch (drive Close)
        (fun closeError => console_error "Failed to close browser" (Some closeError))
  | None => ret tt
  end.

(** [`${STREAMLIT_URL}`] *)
Definition url_text : string :=
  match STREAMLIT_URL env with
  | Some s => s
  | None => "undefined"
  end.

End Primitives.

Definition WAKE_UP_BUTTON_SELECTOR : string :=
  "[data-testid=" ++ dquote ++ "wakeup-button-viewer" ++ dquote ++ "]".

(** ** The retrying script

    Its file name is not recorded; line numbers below refer to it. *)

Module Retrying.

Definition PAGE_LOAD_GRACE_PERIOD_MS : Z := 5000.
Definition WAKE_BUTTON_POLL_TIMEOUT_MS : Z := 60000.
Definition WAKE_BUTTON_POLL_INTERVAL_MS : Z := 1000.
Definition WAKE_MAX_ATTEMPTS : Z := 3.
Definition WAKE_RETRY_BACKOFF_BASE_MS : Z := 2000.
Definition WAKE_READY_TIMEOUT_MS : Z := 120000.
Definition USER_AGENT : string :=
  "Mozilla/5.0 (X11; Linux x86_64) AppleWebKit/537.36 (KHTML, like Gecko) Chrome/123.0.0.0 Safari/537.36".

(** [{ label, ctx }] *)
Record Clicked := mkClicked { label : string; ctx : Ctx }.

(** How the attempt loop is left: by [return], or by [break] and by its
    condition with the value of [lastClickedLabel]. *)
Inductive LoopEnd :=
| Returned
| Fell (lastClickedLabel : option string).

(** [`frame ${frame.url() || '[no URL]'}`] *)
Definition frame_label (frame : Frame) : string :=
  "frame " ++ (if truthy_string (frame_url frame) then frame_url frame else "[no URL]").

(** Lines 98-104: the page, then the frames in the order of [page.frames()]. *)
Definition contexts_of (frames : list Frame) : list (Ctx * string) :=
  (CtxPage, "main page") :: map (fun frame => (CtxFrame frame, frame_label frame)) frames.

(** The negation of the test of line 115, [!box && !inViewport]: what was
    seen can be clicked. *)
Definition actionable (p : Probe) : bool :=
  match p with
  | NoMatch => false
  | Match _ box inViewport =>
      negb (negb (match box with Some _ => true | None => false end) && negb inViewport)
  end.

Definition clicked_msg (c : Clicked) (attempt : Z) : string :=
  "Wake-up button clicked (" ++ label c ++ ") [attempt " ++ string_of_Z attempt ++ "/"
    ++ string_of_Z WAKE_MAX_ATTEMPTS ++ "]; waiting for app to become ready".

Definition not_found_msg (attempt : Z) : string :=
  "Wake-up button not found after polling; assuming app is already awake (attempt "
    ++ string_of_Z attempt ++ "/" ++ string_of_Z WAKE_MAX_ATTEMPTS ++ ")".

Definition already_awake_msg (elapsed : Z) : string :=
  "Keepalive succeeded in " ++ string_of_Z elapsed ++ "ms (already awake)".

Definition retry_msg (attempt backoffMs : Z) : string :=
  "Wake-up button still present after attempt " ++ string_of_Z attempt
    ++ "; retrying in " ++ string_of_Z backoffMs ++ "ms".

Definition succeeded_msg (elapsed : Z) (lastClickedLabel : option string) : string :=
  "Keepalive succeeded in " ++ string_of_Z elapsed ++ "ms"
    ++ match lastClickedLabel with
       | Some l => if truthy_string l then " (wake-up button clicked on " ++ l ++ ")" else EmptyString
       | None => EmptyString
       end.

Definition READY_FAILURE : string :=
  "Wake-up button clicked but app did not become ready in time".
Definition STILL_PRESENT_FAILURE : string :=
  "Wake-up button still present after all wake attempts; app may still be sleeping".
Definition GENERIC_FAILURE : string := "Failed to keep Streamlit app awake".

Section Script.

Context {W : Type}.
Variable driver : forall c : Call, W -> Reply (Res c) * W.
Variable env : Env.

Local Abbreviation drive := (drive driver).
Local Abbreviation start := (start driver).
Local Abbreviation fail := (fail driver env).

(** The [for (const { ctx, label } of contexts)] loop of the locator. *)
Fixpoint scan (contexts : list (Ctx * string)) : M W (option Clicked) :=
  match contexts with
  | [] => ret None
  | (ctx, label) :: rest =>
      button <- drive (Query ctx WAKE_UP_BUTTON_SELECTOR);;
      match button with
      | Some button =>
          console_log ("Wake-up button detected (" ++ label ++ "); attempting to click");;
          drive (ScrollIntoView button);;
          box <- drive (BoundingBox button);;
          inViewport <- drive (IsIntersectingViewport button);;
          emit (EvProbe ctx label (Match button box inViewport));;
          if negb (match box with Some _ => true | None => false end) && negb inViewport then
            scan rest
          else
            sleep ClickSettle 250;;
            drive (Click button 150);;
            emit (EvClicked label ctx);;
            ret (Some (mkClicked label ctx))
      | None =>
          emit (EvProbe ctx label NoMatch);;
          scan rest
      end
  end.

(** The [while (!clicked && Date.now() < pollDeadline)] loop; [rounds]
    bounds the number of passes through its body. *)
Fixpoint poll (rounds : nat) (pollDeadline : Z) : M W (option Clicked) :=
  t <- Date_now;;
  if t <? pollDeadline then
    match rounds with
    | O => spent
    | S rounds' =>
        frames <- drive Frames;;
        clicked <- scan (contexts_of frames);;
        match clicked with
        | Some c => ret (Some c)
        | None =>
            sleep PollInterval WAKE_BUTTON_POLL_INTERVAL_MS;;
            poll rounds' pollDeadline
        end
    end
  else ret None.

Definition poll_rounds : nat :=
  Z.to_nat (WAKE_BUTTON_POLL_TIMEOUT_MS / WAKE_BUTTON_POLL_INTERVAL_MS).

Definition findAndClickWakeButton : M W (option Clicked) :=
  t <- Date_now;;
  poll poll_rounds (t + WAKE_BUTTON_POLL_TIMEOUT_MS).

(** Lines 154-173: the readiness race and its handler. *)
Definition await_ready (lastClickedContext : Ctx) : M W unit :=
  try_catch
    (p1 <- start (WaitForFunction lastClickedContext WAKE_UP_BUTTON_SELECTOR WAKE_READY_TIMEOUT_MS);;
     p2 <- start (WaitForNavigation WAKE_READY_TIMEOUT_MS);;
     await (Promise_race (catch_null p1) (catch_null p2));;
     sleep ReadyGrace 2000)
    (fun readyError => fail READY_FAILURE (Some readyError)).

(** Lines 175-185: the re-query of the clicked context.  The handler is
    attached with [.catch] to the promise that [$] returns: it sees a
    rejection of that promise, not an exception that [$] throws before it
    returns one. *)
Definition requery (lastClickedContext : Ctx) : M W (option ElementHandle) :=
  p <- start (Query lastClickedContext WAKE_UP_BUTTON_SELECTOR);;
  try_catch
    (await p)
    (fun err =>
       if includes (message err) "Execution context was destroyed"
          || includes (message err) "Cannot find context"
       then ret None
       else throw err).

(** Lines 147-185: from the click to the point where [buttonStillThere] is
    known. *)
Definition confirm (attempt : Z) (clicked : Clicked) : M W AttemptOutcome :=
  console_log (clicked_msg clicked attempt);;
  await_ready (ctx clicked);;
  buttonStillThere <- requery (ctx clicked);;
  let o := match buttonStillThere with
           | Some _ => ClickedButStillPresent (label clicked)
           | None => ClickedAndConfirmedGone (label clicked)
           end in
  emit (EvAttempt attempt o);;
  ret o.

(** Lines 135-185: one pass of the attempt loop up to that point. *)
Definition wakeAttempt (attempt : Z) : M W AttemptOutcome :=
  clicked <- findAndClickWakeButton;;
  match clicked with
  | None =>
      emit (EvAttempt attempt NoControlFound);;
      ret NoControlFound
  | Some clicked => confirm attempt clicked
  end.

(** [for (let attempt = 1; attempt <= WAKE_MAX_ATTEMPTS; attempt += 1)];
    [passes] bounds the number of passes through the body. *)
Fixpoint for_attempts (passes : nat) (startedAt : Z) (attempt : Z)
         (lastClickedLabel : option string) : M W LoopEnd :=
  if attempt <=? WAKE_MAX_ATTEMPTS then
    match passes with
    | O => spent
    | S passes' =>
        o <- wakeAttempt attempt;;
        match o with
        | NoControlFound =>
            console_log (not_found_msg attempt);;
            t <- Date_now;;
            console_log (already_awake_msg (t - startedAt));;
            ret Returned
        | ClickedAndConfirmedGone l =>
            console_log "Wake-up button disappeared; app should be awake";;
            ret (Fell (Some l))
        | ClickedButStillPresent l =>
            (if attempt <? WAKE_MAX_ATTEMPTS then
               let backoffMs := WAKE_RETRY_BACKOFF_BASE_MS * 2 ^ (attempt - 1) in
               console_log (retry_msg attempt backoffMs);;
               sleep RetryBackoff backoffMs
             else
               fail STILL_PRESENT_FAILURE None);;
            for_attempts passes' startedAt (attempt + 1) (Some l)
        end
    end
  else ret (Fell lastClickedLabel).

(** Lines 71-209: what the outer [try] does once [browser] is assigned. *)
Definition session (startedAt : Z) : M W unit :=
  drive NewPage;;
  drive (SetUserAgent USER_AGENT);;
  drive (SetViewport 1280 720);;
  response <- drive (Goto (STREAMLIT_URL env) 30000);;
  match response with
  | None => throw (new_Error "No response received from the Streamlit app")
  | Some response =>
      let status := status response in
      console_log ("Initial response: [" ++ string_of_Z status ++ "] " ++ statusText response);;
      (if status >=? 400 then
         throw (new_Error ("Unexpected response status: " ++ string_of_Z status))
       else ret tt);;
      console_log ("Waiting " ++ string_of_Z PAGE_LOAD_GRACE_PERIOD_MS ++ "ms for the app to settle");;
      sleep PageLoadGrace PAGE_LOAD_GRACE_PERIOD_MS;;
      e <- for_attempts (Z.to_nat WAKE_MAX_ATTEMPTS) startedAt 1 None;;
      match e with
      | Returned => ret tt
      | Fell lastClickedLabel =>
          t <- Date_now;;
          console_log (succeeded_msg (t - startedAt) lastClickedLabel)
      end
  end.

(** Lines 65-209: the body of the outer [try]. *)
Definition body (startedAt : Z) : M W unit :=
  b <- drive Launch;;
  set_browser (Some b);;
  session startedAt.

(** The script: the immediately invoked [async] function. *)
Definition main : M W unit :=
  (if negb (truthy (STREAMLIT_URL env)) then
     fail "STREAMLIT_URL env var is required" None
   else ret tt);;
  console_log ("Starting keepalive for " ++ url_text env);;
  set_browser None;;
  startedAt <- Date_now;;
  try_finally
    (try_catch (body startedAt)
       (fun error => fail GENERIC_FAILURE (Some error)))
    (close_browser driver).

End Script.

End Retrying.


(** ** [.github/scripts/keepalive.js] *)

Module Keepalive.

Definition PAGE_LOAD_GRACE_PERIOD_MS : Z := 8000.

Definition GENERIC_FAILURE : string := "Failed to keep Streamlit app awake".

Definition succeeded_msg (elapsed : Z) (clicked : bool) : string :=
  "Keepalive succeeded in " ++ string_of_Z elapsed ++ "ms"
    ++ (if clicked then " (wake-up button clicked)" else EmptyString).

Section Script.

Context {W : Type}.
Variable driver : forall c : Call, W -> Reply (Res c) * W.
Variable env : Env.

Local Abbreviation drive := (drive driver).
Local Abbreviation fail := (fail driver env).

(** [button.click()] carries no options: the delay is the driver's default. *)
Definition checkForWakeButton (context : Ctx) : M W bool :=
  button <- drive (Query context WAKE_UP_BUTTON_SELECTOR);;
  match button with
  | Some button =>
      console_log "Wake-up button detected; attempting to click";;
      drive (Click button 0);;
      ret true
  | None => ret false
  end.

(** [for (const frame of page.frames())] with its [break]. *)
Fixpoint check_frames (frames : list Frame) : M W bool :=
  match frames with
  | [] => ret false
  | frame :: rest =>
      clicked <- checkForWakeButton (CtxFrame frame);;
      if clicked then ret true else check_frames rest
  end.

(** Lines 63-104: what the outer [try] does once [browser] is assigned. *)
Definition session (startedAt : Z) : M W unit :=
  drive NewPage;;
  response <- drive (Goto (STREAMLIT_URL env) 30000);;
  match response with
  | None => throw (new_Error "No response received from the Streamlit app")
  | Some response =>
      let status := status response in
      console_log ("Initial response: " ++ string_of_Z status ++ " " ++ statusText response);;
      (if status >=? 400 then
         throw (new_Error ("Unexpected response status: " ++ string_of_Z status))
       else ret tt);;
      sleep PageLoadGrace PAGE_LOAD_GRACE_PERIOD_MS;;
      clicked <- checkForWakeButton CtxPage;;
      clicked <- (if negb clicked then
                    frames <- drive Frames;;
                    check_frames frames
                  else ret clicked);;
      t <- Date_now;;
      console_log (succeeded_msg (t - startedAt) clicked)
  end.

(** Lines 57-104: the body of the outer [try]. *)
Definition body (startedAt : Z) : M W unit :=
  b <- drive Launch;;
  set_browser (Some b);;
  session startedAt.

Definition main : M W unit :=
  (if negb (truthy (STREAMLIT_URL env)) then
     fail "STREAMLIT_URL env var is required" None
   else ret tt);;
  console_log ("Starting keepalive for " ++ url_text env);;
  set_browser None;;
  startedAt <- Date_now;;
  try_finally
    (try_catch (body startedAt)
       (fun error => fail GENERIC_FAILURE (Some error)))
    (close_browser driver).

End Script.

End Keepalive.

(** ** Runs and what is read off their traces *)

(** A run starts with the driver's world [w], the clock at [t0], no browser
    and an empty trace. *)
Definition init {W : Type} (w : W) (t0 : Z) : State W := mkState w t0 None [].

(** What the coordinator's decisions show as in a trace. *)
Inductive Mark :=
| MLaunch
| MGoto (s : Settled (option Response))
| MClick
| MClicked (label : string)
| MAttempt (attempt : Z) (o : AttemptOutcome)
| MBackoff (ms : Z)
| MReason (reason : string)
| MErrorObj (msg : string) (e : Error)
| MSummary (path text : string)
| MSuccess (msg : string)
| MClose.

Definition mark_call (c : Call) : Settled (Res c) -> list Mark :=
  match c return Settled (Res c) -> list Mark with
  | Launch => fun _ => [MLaunch]
  | Goto _ _ => fun s => [MGoto s]
  | Click _ _ => fun _ => [MClick]
  | AppendFile path text => fun _ => [MSummary path text]
  | Close => fun _ => [MClose]
  | _ => fun _ => []
  end.

(** [console.error(reason)] is issued by [fail] only; the closing
    [console.log] of a successful run starts with [Keepalive succeeded]. *)
Definition mark (e : Event) : list Mark :=
  match e with
  | EvCall c s => mark_call c s
  | EvClicked label _ => [MClicked label]
  | EvAttempt attempt o => [MAttempt attempt o]
  | EvSleep RetryBackoff ms => [MBackoff ms]
  | EvConsole LError reason None => [MReason reason]
  | EvConsole LError msg (Some e) => [MErrorObj msg e]
  | EvConsole LLog msg _ =>
      if String.prefix "Keepalive succeeded" msg then [MSuccess msg] else []
  | _ => []
  end.

Definition marks (tr : list Event) : list Mark := flat_map mark tr.

(** What the locator shows as in a trace. *)
Inductive Sight :=
| SFrames (s : Settled (list Frame))
| SProbe (ctx : Ctx) (label : string) (p : Probe)
| SClick (el : ElementHandle)
| SClicked (label : string) (ctx : Ctx).

Definition sight_call (c : Call) : Settled (Res c) -> list Sight :=
  match c return Settled (Res c) -> list Sight with
  | Frames => fun s => [SFrames s]
  | Click el _ => fun _ => [SClick el]
  | _ => fun _ => []
  end.

Definition sight (e : Event) : list Sight :=
  match e with
  | EvCall c s => sight_call c s
  | EvProbe ctx label p => [SProbe ctx label p]
  | EvClicked label ctx => [SClicked label ctx]
  | _ => []
  end.

Definition sights (tr : list Event) : list Sight := flat_map sight tr.

Definition is_sclick (s : Sight) : bool :=
  match s with SClick _ => true | _ => false end.

(** How the two readiness waits of the run settled, in the order issued. *)
Definition readiness_wait (e : Event) : list (Settled unit) :=
  match e with
  | EvCall c s =>
      match c return Settled (Res c) -> list (Settled unit) with
      | WaitForFunction _ _ _ => fun s => [s]
      | WaitForNavigation _ => fun s => [s]
      | _ => fun _ => []
      end s
  | _ => []
  end.

Definition readiness_waits (tr : list Event) : list (Settled unit) :=
  flat_map readiness_wait tr.


Definition click_count (ms : list Mark) : nat :=
  length (filter (fun m => match m with MClick => true | _ => false end) ms).

Definition close_count (ms : list Mark) : nat :=
  length (filter (fun m => match m with MClose => true | _ => false end) ms).

Definition launch_count (ms : list Mark) : nat :=
  length (filter (fun m => match m with MLaunch => true | _ => false end) ms).


Definition outcomes (ms : list Mark) : list (Z * AttemptOutcome) :=
  flat_map (fun m => match m with MAttempt a o => [(a, o)] | _ => [] end) ms.

Definition backoff_delays (ms : list Mark) : list Z :=
  flat_map (fun m => match m with MBackoff d => [d] | _ => [] end) ms.

Definition clicked_labels (ms : list Mark) : list string :=
  flat_map (fun m => match m with MClicked l => [l] | _ => [] end) ms.

Definition reasons (ms : list Mark) : list string :=
  flat_map (fun m => match m with MReason r => [r] | _ => [] end) ms.

Definition success_messages (ms : list Mark) : list string :=
  flat_map (fun m => match m with MSuccess s => [s] | _ => [] end) ms.

Definition summaries (ms : list Mark) : list (string * string) :=
  flat_map (fun m => match m with MSummary p t => [(p, t)] | _ => [] end) ms.

Definition launches (ms : list Mark) : list Mark :=
  filter (fun m => match m with MLaunch => true | _ => false end) ms.

Definition navigations (ms : list Mark) : list (Settled (option Response)) :=
  flat_map (fun m => match m with MGoto s => [s] | _ => [] end) ms.


Open Scope list_scope.

(** How a settled promise is observed by [await]. *)
Definition outcome_of {A} (s : Settled A) : Outcome A :=
  match s with
  | Resolved a => Val a
  | Rejected e => Throw e
  end.

(** ** A program logic over traces

    [spec proj m P]: whenever [m] ends, the clock has not gone back, a
    [browser] that was assigned still is, the trace has only grown, and [P]
    holds of the outcome and of what [proj] shows of the events added. *)

Section Logic.

Context {W : Type} {X : Type}.
Variable proj : Event -> list X.

Definition obs (d : list Event) : list X := flat_map proj d.

Definition spec {A} (m : M W A) (P : Outcome A -> list X -> Prop) : Prop :=
  forall st o st', m st = (o, st') ->
    clock st <= clock st' /\
    (browser st = Some tt -> browser st' = Some tt) /\
    exists d, trace st' = trace st ++ d /\ P o (obs d).

End Logic.

(** ** The shapes a run can take *)

Section Shapes.

Context {W : Type}.
Variable driver : forall c : Call, W -> Reply (Res c) * W.
Variable env : Env.

(** One of the two readiness waits throws [e] before it returns its
    promise, in some world of the driver. *)
Definition is_wait (c : Call) : bool :=
  match c with
  | WaitForFunction _ _ _ | WaitForNavigation _ => true
  | _ => false
  end.

Definition WaitThrew (e : Error) : Prop :=
  exists c w, is_wait c = true /\ fst (driver c w) = Throws e.

(** What [fail] leaves among the marks: the reason, the error if there is
    one, and the summary if a sink is configured (a failed write is only
    logged). *)
Definition fail_head (reason : string) (err : option Error) : list Mark :=
  MReason reason ::
  match err with
  | Some e => [MErrorObj EmptyString e]
  | None => []
  end.

Definition Reported (reason : string) (err : option Error) (v : list Mark) : Prop :=
  exists tail, v = fail_head reason err ++ tail /\
    if truthy (GITHUB_STEP_SUMMARY env) then
      exists noise,
        tail = MSummary (or_else (GITHUB_STEP_SUMMARY env) EmptyString)
                 (buildFailureSummary (failure_lines env reason err)) :: noise /\
        (noise = [] \/ exists we, noise = [MErrorObj "Failed to write failure summary:" we])
    else tail = [].

(** What the [finally] clause leaves when [browser] is assigned. *)
Definition Closed (v : list Mark) : Prop :=
  v = [MClose] \/ exists e, v = [MClose; MErrorObj "Failed to close browser" e].

(** The locator, as the coordinator sees it. *)
Definition Located (o : Outcome (option Retrying.Clicked)) (v : list Mark) : Prop :=
  match o with
  | Val None => v = []
  | Val (Some c) =>
      v = [MClick; MClicked (Retrying.label c)] /\ truthy_string (Retrying.label c) = true
  | Throw _ => v = [] \/ v = [MClick]
  | Exit _ => False
  | Spent => False
  end.

(** One pass of the attempt loop up to [buttonStillThere]. *)
Definition Attempted (attempt : Z) (o : Outcome AttemptOutcome) (v : list Mark) : Prop :=
  match o with
  | Val NoControlFound => v = [MAttempt attempt NoControlFound]
  | Val (ClickedAndConfirmedGone l) =>
      v = [MClick; MClicked l; MAttempt attempt (ClickedAndConfirmedGone l)] /\
      truthy_string l = true
  | Val (ClickedButStillPresent l) =>
      v = [MClick; MClicked l; MAttempt attempt (ClickedButStillPresent l)]
  | Throw _ => v = [] \/ v = [MClick] \/ exists l, v = [MClick; MClicked l]
  | Exit c =>
      c = 1 /\
      exists l e w,
        WaitThrew e /\
        v = [MClick; MClicked l] ++ w /\
        Reported Retrying.READY_FAILURE (Some e) w
  | Spent => False
  end.

(** The attempt loop entered with [attempt] and [lastClickedLabel]. *)
Inductive Looped : Z -> option string -> Outcome Retrying.LoopEnd -> list Mark -> Prop :=
| loop_over attempt last :
    Retrying.WAKE_MAX_ATTEMPTS < attempt ->
    Looped attempt last (Val (Retrying.Fell last)) []
| loop_awake attempt last t :
    attempt <= Retrying.WAKE_MAX_ATTEMPTS ->
    Looped attempt last (Val Retrying.Returned)
      [MAttempt attempt NoControlFound; MSuccess (Retrying.already_awake_msg t)]
| loop_gone attempt last l :
    attempt <= Retrying.WAKE_MAX_ATTEMPTS ->
    truthy_string l = true ->
    Looped attempt last (Val (Retrying.Fell (Some l)))
      [MClick; MClicked l; MAttempt attempt (ClickedAndConfirmedGone l)]
| loop_exhausted attempt last l v :
    attempt = Retrying.WAKE_MAX_ATTEMPTS ->
    Reported Retrying.STILL_PRESENT_FAILURE None v ->
    Looped attempt last (Exit 1)
      ([MClick; MClicked l; MAttempt attempt (ClickedButStillPresent l)] ++ v)
| loop_unready attempt last l e v :
    attempt <= Retrying.WAKE_MAX_ATTEMPTS ->
    WaitThrew e ->
    Reported Retrying.READY_FAILURE (Some e) v ->
    Looped attempt last (Exit 1) ([MClick; MClicked l] ++ v)
| loop_retry attempt last l o v :
    attempt < Retrying.WAKE_MAX_ATTEMPTS ->
    Looped (attempt + 1) (Some l) o v ->
    Looped attempt last o
      ([MClick; MClicked l; MAttempt attempt (ClickedButStillPresent l);
        MBackoff (Retrying.WAKE_RETRY_BACKOFF_BASE_MS * 2 ^ (attempt - 1))] ++ v)
| loop_throw attempt last e v :
    attempt <= Retrying.WAKE_MAX_ATTEMPTS ->
    (v = [] \/ v = [MClick] \/ exists l, v = [MClick; MClicked l]) ->
    Looped attempt last (Throw e) v.

(** How the navigation can fail, and the error thrown for it. *)
Definition NavFailed (s : Settled (option Response)) (e : Error) : Prop :=
  s = Rejected e \/
  (s = Resolved None /\ e = new_Error "No response received from the Streamlit app") \/
  (exists r, s = Resolved (Some r) /\ 400 <= status r /\
             e = new_Error ("Unexpected response status: " ++ string_of_Z (status r))%string).

(** The session once [browser] is assigned: it fails before the navigation,
    at the navigation, or enters the attempt loop. *)
Definition Sessioned (o : Outcome unit) (v : list Mark) : Prop :=
  (exists e, o = Throw e /\ v = []) \/
  (exists s e, NavFailed s e /\ o = Throw e /\ v = [MGoto s]) \/
  (exists r lo lv,
      status r < 400 /\ Looped 1 None lo lv /\
      match lo with
      | Val Retrying.Returned => o = Val tt /\ v = MGoto (Resolved (Some r)) :: lv
      | Val (Retrying.Fell last) =>
          exists t, o = Val tt /\
                    v = MGoto (Resolved (Some r)) :: lv ++ [MSuccess (Retrying.succeeded_msg t last)]
      | Throw e => o = Throw e /\ v = MGoto (Resolved (Some r)) :: lv
      | Exit c => o = Exit c /\ v = MGoto (Resolved (Some r)) :: lv
      | Spent => False
      end).

(** The retrying script from start to end. *)
Inductive Ran : Outcome unit -> list Mark -> Prop :=
| ran_unconfigured v :
    truthy (STREAMLIT_URL env) = false ->
    Reported "STREAMLIT_URL env var is required" None v ->
    Ran (Exit 1) v
| ran_no_page e v :
    truthy (STREAMLIT_URL env) = true ->
    Reported Retrying.GENERIC_FAILURE (Some e) v ->
    Ran (Exit 1) (MLaunch :: v)
| ran_navigation s e v :
    truthy (STREAMLIT_URL env) = true ->
    NavFailed s e ->
    Reported Retrying.GENERIC_FAILURE (Some e) v ->
    Ran (Exit 1) (MLaunch :: MGoto s :: v)
| ran_awake r v c :
    truthy (STREAMLIT_URL env) = true ->
    status r < 400 ->
    Looped 1 None (Val Retrying.Returned) v ->
    Closed c ->
    Ran (Val tt) (MLaunch :: MGoto (Resolved (Some r)) :: v ++ c)
| ran_woken r v last t c :
    truthy (STREAMLIT_URL env) = true ->
    status r < 400 ->
    Looped 1 None (Val (Retrying.Fell last)) v ->
    Closed c ->
    Ran (Val tt)
      (MLaunch :: MGoto (Resolved (Some r)) :: v ++ MSuccess (Retrying.succeeded_msg t last) :: c)
| ran_exhausted r v :
    truthy (STREAMLIT_URL env) = true ->
    status r < 400 ->
    Looped 1 None (Exit 1) v ->
    Ran (Exit 1) (MLaunch :: MGoto (Resolved (Some r)) :: v)
| ran_crashed r v e w :
    truthy (STREAMLIT_URL env) = true ->
    status r < 400 ->
    Looped 1 None (Throw e) v ->
    Reported Retrying.GENERIC_FAILURE (Some e) w ->
    Ran (Exit 1) (MLaunch :: MGoto (Resolved (Some r)) :: v ++ w).

End Shapes.

(** The locator's scan of a list of contexts, as its probes show it. *)
Inductive Scanned : list (Ctx * string) -> Outcome (option Retrying.Clicked) -> list Sight -> Prop :=
| scanned_none : Scanned [] (Val None) []
| scanned_skip ctx l rest p o v :
    Retrying.actionable p = false ->
    Scanned rest o v ->
    Scanned ((ctx, l) :: rest) o (SProbe ctx l p :: v)
| scanned_hit ctx l rest el box inViewport :
    Retrying.actionable (Match el box inViewport) = true ->
    Scanned ((ctx, l) :: rest) (Val (Some (Retrying.mkClicked l ctx)))
      [SProbe ctx l (Match el box inViewport); SClick el; SClicked l ctx]
| scanned_click_failed ctx l rest el box inViewport e :
    Retrying.actionable (Match el box inViewport) = true ->
    Scanned ((ctx, l) :: rest) (Throw e) [SProbe ctx l (Match el box inViewport); SClick el]
| scanned_probe_failed ctx l rest e :
    Scanned ((ctx, l) :: rest) (Throw e) [].

(** The locator's polling, round by round. *)
Inductive Polled : Outcome (option Retrying.Clicked) -> list Sight -> Prop :=
| polled_deadline : Polled (Val None) []
| polled_spent : Polled Spent []
| polled_frames_failed e : Polled (Throw e) [SFrames (Rejected e)]
| polled_round frames v o w :
    Scanned (Retrying.contexts_of frames) (Val None) v ->
    Polled o w ->
    Polled o (SFrames (Resolved frames) :: v ++ w)
| polled_last frames o v :
    Scanned (Retrying.contexts_of frames) o v ->
    o <> Val None ->
    Polled o (SFrames (Resolved frames) :: v).

(** ** Drivers used to run the scripts on concrete inputs *)

Module Worlds.

Definition ok {A} (a : A) : Promise A := mkPromise 10%N (Resolved a).

Definition timeout_error (ms : Z) : Error :=
  mkError "TimeoutError" ("Waiting failed: " ++ string_of_Z ms ++ "ms exceeded")%string.

(** A wait that never sees its condition: it is rejected at its timeout. *)
Definition never (ms : Z) : Promise unit :=
  mkPromise (Z.to_N ms) (Rejected (timeout_error ms)).

Definition env : Env := mkEnv (Some "https://app.example"%string) (Some "/tmp/summary.md"%string).

Definition a_box : Box := mkBox 560 320 160 40.

(** An application that is awake: every call resolves, no wake-up button. *)
Definition quiet (c : Call) : Promise (Res c) :=
  match c return Promise (Res c) with
  | Goto _ _ => ok (Some (mkResponse 200 "OK"))
  | Frames => ok []
  | Query _ _ => ok None
  | BoundingBox _ => ok None
  | IsIntersectingViewport _ => ok false
  | Launch | NewPage | SetUserAgent _ | SetViewport _ _ | ScrollIntoView _
  | Click _ _ | WaitForFunction _ _ _ | WaitForNavigation _ | AppendFile _ _ | Close => ok tt
  end.

Definition awake (c : Call) (w : unit) : Reply (Res c) * unit := (Returns (quiet c), w).

(** The button is on the page, can be clicked, and never goes away; neither
    readiness wait resolves before its timeout. *)
Definition persistent (c : Call) (w : unit) : Reply (Res c) * unit :=
  (Returns (match c return Promise (Res c) with
            | Query _ _ => ok (Some 7%nat)
            | BoundingBox _ => ok (Some a_box)
            | IsIntersectingViewport _ => ok true
            | WaitForFunction _ _ t => never t
            | WaitForNavigation t => never t
            | c' => quiet c'
            end), w).

(** The navigation answers with status 500. *)
Definition failing500 (c : Call) (w : unit) : Reply (Res c) * unit :=
  (Returns (match c return Promise (Res c) with
            | Goto _ _ => ok (Some (mkResponse 500 "Internal Server Error"))
            | c' => quiet c'
            end), w).

(** The navigation yields no response object. *)
Definition no_response (c : Call) (w : unit) : Reply (Res c) * unit :=
  (Returns (match c return Promise (Res c) with
            | Goto _ _ => ok None
            | c' => quiet c'
            end), w).




(** The button is in the document of the page but is not laid out: no
    bounding box, not intersecting the viewport. *)
Definition inert (c : Call) (w : unit) : Reply (Res c) * unit :=
  (Returns (match c return Promise (Res c) with
            | Query CtxPage _ => ok (Some 7%nat)
            | c' => quiet c'
            end), w).

(** Two frames; the page holds a button that is not laid out, each frame one
    that can be clicked. *)
Definition frame_a : Frame := mkFrame 1 "https://a.example/".
Definition frame_b : Frame := mkFrame 2 EmptyString.

Definition framed (c : Call) (w : unit) : Reply (Res c) * unit :=
  (Returns (match c return Promise (Res c) with
            | Frames => ok [frame_a; frame_b]
            | Query CtxPage _ => ok (Some 0%nat)
            | Query (CtxFrame f) _ => ok (Some (frame_id f))
            | BoundingBox el => ok (if (el =? 0)%nat then None else Some a_box)
            | IsIntersectingViewport el => ok (negb (el =? 0)%nat)
            | c' => quiet c'
            end), w).

(** The button is still there at the first re-query and gone afterwards; the
    world counts the queries. *)
Definition fading (c : Call) (w : nat) : Reply (Res c) * nat :=
  (Returns (match c return Promise (Res c) with
            | Query _ _ => ok (if (w <? 2)%nat then Some 7%nat else None)
            | BoundingBox _ => ok (Some a_box)
            | IsIntersectingViewport _ => ok true
            | c' => quiet c'
            end),
   match c with
   | Query _ _ => S w
   | _ => w
   end).

(** The button shows on the page, is still there at the first re-query, then
    shows in the frame and is gone from it after the second click; the world
    counts the queries. *)
Definition wandering (c : Call) (w : nat) : Reply (Res c) * nat :=
  (Returns (match c return Promise (Res c) with
            | Frames => ok [frame_a]
            | Query _ _ =>
                ok (match w with
                    | 0%nat | 1%nat => Some 7%nat
                    | 3%nat => Some 8%nat
                    | _ => None
                    end)
            | BoundingBox _ => ok (Some a_box)
            | IsIntersectingViewport _ => ok true
            | c' => quiet c'
            end),
   match c with
   | Query _ _ => S w
   | _ => w
   end).

End Worlds.

(** ** Further shapes and drivers *)

(** How often the locator asked the driver for the frames. *)
Definition frames_calls (v : list Sight) : nat :=
  length (filter (fun s => match s with SFrames _ => true | _ => false end) v).

(** [checkForWakeButton] of [keepalive.js], as the marks show it. *)
Definition Checked (o : Outcome bool) (v : list Mark) : Prop :=
  match o with
  | Val true => v = [MClick]
  | Val false => v = []
  | Throw _ => v = [] \/ v = [MClick]
  | Exit _ => False
  | Spent => False
  end.

(** What the search of [keepalive.js] asks of the driver, with the replies. *)
Inductive Ask :=
| AQuery (ctx : Ctx) (found : Settled (option ElementHandle))
| AFrames (s : Settled (list Frame))
| AClick (el : ElementHandle) (s : Settled unit).

Definition ask_call (c : Call) : Settled (Res c) -> list Ask :=
  match c return Settled (Res c) -> list Ask with
  | Query ctx _ => fun s => [AQuery ctx s]
  | Frames => fun s => [AFrames s]
  | Click el _ => fun s => [AClick el s]
  | _ => fun _ => []
  end.

Definition ask (e : Event) : list Ask :=
  match e with
  | EvCall c s => ask_call c s
  | _ => []
  end.

Definition asks (tr : list Event) : list Ask := flat_map ask tr.

(** [checkForWakeButton] on one context. *)
Definition Asked (context : Ctx) (o : Outcome bool) (v : list Ask) : Prop :=
  match o with
  | Val true =>
      exists el, v = [AQuery context (Resolved (Some el)); AClick el (Resolved tt)]
  | Val false => v = [AQuery context (Resolved None)]
  | Throw e =>
      v = [AQuery context (Rejected e)] \/
      exists el, v = [AQuery context (Resolved (Some el)); AClick el (Rejected e)]
  | Exit _ => False
  | Spent => False
  end.

(** The loop over the frames: the frames without a button are passed, the
    first one that has it, or that fails, ends the loop. *)
Inductive Swept : list Frame -> Outcome bool -> list Ask -> Prop :=
| swept_end : Swept [] (Val false) []
| swept_miss frame rest o v :
    Swept rest o v ->
    Swept (frame :: rest) o (AQuery (CtxFrame frame) (Resolved None) :: v)
| swept_stop frame rest o v :
    o <> Val false ->
    Asked (CtxFrame frame) o v ->
    Swept (frame :: rest) o v.

(** The whole search: the page first, the frames when the page has no
    button. *)
Definition KSearched (v : list Ask) : Prop :=
  v = [] \/
  (exists o, o <> Val false /\ Asked CtxPage o v) \/
  (exists e, v = [AQuery CtxPage (Resolved None); AFrames (Rejected e)]) \/
  (exists frames o w,
      v = AQuery CtxPage (Resolved None) :: AFrames (Resolved frames) :: w /\
      Swept frames o w).

(** What the locator sees in a context (lines 107-114) when the driver
    answers each call with [answer]; nothing when one of the calls fails. *)
Definition seen (answer : forall c : Call, Reply (Res c)) (ctx : Ctx) : option Probe :=
  match ending (answer (Query ctx WAKE_UP_BUTTON_SELECTOR)) with
  | Resolved None => Some NoMatch
  | Resolved (Some el) =>
      match ending (answer (ScrollIntoView el)),
            ending (answer (BoundingBox el)),
            ending (answer (IsIntersectingViewport el)) with
      | Resolved _, Resolved box, Resolved inViewport => Some (Match el box inViewport)
      | _, _, _ => None
      end
  | Rejected _ => None
  end.

(** The errors of the driver calls that failed, oldest first. *)
Definition failure (ev : Event) : list Error :=
  match ev with
  | EvCall _ (Rejected e) => [e]
  | _ => []
  end.

Definition failures (tr : list Event) : list Error := flat_map failure tr.

(** No driver call has failed unless the outcome is an exception, and then
    one has: the last of the trace, with the error thrown. *)
Definition FromDriver {A : Type} (o : Outcome A) (d : list Event) : Prop :=
  match o with
  | Throw e => exists pre c, d = pre ++ [EvCall c (Rejected e)] /\ failures pre = []
  | Exit _ => False
  | _ => failures d = []
  end.

(** The projection that keeps every event. *)
Definition whole (e : Event) : list Event := [e].

Section MoreShapes.

Variable env : Env.

(** The session of [keepalive.js] once [browser] is assigned. *)
Definition KSessioned (o : Outcome unit) (v : list Mark) : Prop :=
  (exists e, o = Throw e /\ v = []) \/
  (exists s e, NavFailed s e /\ o = Throw e /\ v = [MGoto s]) \/
  (exists r,
      status r < 400 /\
      ((exists (clicked : bool) t,
           o = Val tt /\
           v = MGoto (Resolved (Some r))
                 :: (if clicked then [MClick] else [])
                 ++ [MSuccess (Keepalive.succeeded_msg t clicked)]) \/
       (exists e, o = Throw e /\
                  (v = [MGoto (Resolved (Some r))] \/
                   v = [MGoto (Resolved (Some r)); MClick])))).

(** [keepalive.js] from start to end. *)
Inductive KRan : Outcome unit -> list Mark -> Prop :=
| kran_unconfigured v :
    truthy (STREAMLIT_URL env) = false ->
    Reported env "STREAMLIT_URL env var is required" None v ->
    KRan (Exit 1) v
| kran_no_page e v :
    truthy (STREAMLIT_URL env) = true ->
    Reported env Keepalive.GENERIC_FAILURE (Some e) v ->
    KRan (Exit 1) (MLaunch :: v)
| kran_navigation s e v :
    truthy (STREAMLIT_URL env) = true ->
    NavFailed s e ->
    Reported env Keepalive.GENERIC_FAILURE (Some e) v ->
    KRan (Exit 1) (MLaunch :: MGoto s :: v)
| kran_succeeded r (clicked : bool) t c :
    truthy (STREAMLIT_URL env) = true ->
    status r < 400 ->
    Closed c ->
    KRan (Val tt)
      (MLaunch :: MGoto (Resolved (Some r))
         :: (if clicked then [MClick] else [])
         ++ MSuccess (Keepalive.succeeded_msg t clicked) :: c)
| kran_crashed r (clicked : bool) e w :
    truthy (STREAMLIT_URL env) = true ->
    status r < 400 ->
    Reported env Keepalive.GENERIC_FAILURE (Some e) w ->
    KRan (Exit 1)
      (MLaunch :: MGoto (Resolved (Some r)) :: (if clicked then [MClick] else []) ++ w).

End MoreShapes.

Module Cases.

Import Worlds.

(** No URL configured, a summary sink configured. *)
Definition env_without_url : Env := mkEnv None (Some "/tmp/summary.md"%string).

(** An application that is awake, and a browser that refuses to close. *)
Definition stubborn (c : Call) (w : unit) : Reply (Res c) * unit :=
  (Returns (match c return Promise (Res c) with
            | Close => mkPromise 10%N (Rejected (mkError "Error" "Target closed"))
            | c' => quiet c'
            end), w).

(** After the click the re-query fails for a reason other than a destroyed
    context; the world records whether the click happened. *)
Definition protocol_error : Error := mkError "ProtocolError" "Protocol error: Connection closed.".

Definition broken (c : Call) (w : bool) : Reply (Res c) * bool :=
  (Returns (match c return Promise (Res c) with
            | Query _ _ => if w then mkPromise 10%N (Rejected protocol_error) else ok (Some 7%nat)
            | BoundingBox _ => ok (Some a_box)
            | IsIntersectingViewport _ => ok true
            | c' => quiet c'
            end),
   match c with
   | Click _ _ => true
   | _ => w
   end).

(** The button can be clicked, and the wait on the clicked context throws
    before it returns a promise. *)
Definition detached_error : Error := mkError "Error" "Attempted to use detached Frame".

Definition abrupt (c : Call) (w : unit) : Reply (Res c) * unit :=
  (match c return Reply (Res c) with
   | WaitForFunction _ _ _ => Throws detached_error
   | Query _ _ => Returns (ok (Some 7%nat))
   | BoundingBox _ => Returns (ok (Some a_box))
   | IsIntersectingViewport _ => Returns (ok true)
   | c' => Returns (quiet c')
   end, w).

(** Two frames; the page holds a button that is not laid out, the first
    frame none, and the second frame one that can be clicked. *)
Definition second_frame (c : Call) (w : unit) : Reply (Res c) * unit :=
  (Returns (match c return Promise (Res c) with
            | Frames => ok [frame_a; frame_b]
            | Query CtxPage _ => ok (Some 0%nat)
            | Query (CtxFrame f) _ => ok (if (frame_id f =? 2)%nat then Some 2%nat else None)
            | BoundingBox el => ok (if (el =? 2)%nat then Some a_box else None)
            | IsIntersectingViewport el => ok (el =? 2)%nat
            | c' => quiet c'
            end), w).

(** Two frames.  In the first round nothing shows anywhere; from the second
    round on the page holds a button that is not laid out, the first frame
    none, and the second frame one that can be clicked.  The world counts the
    calls of [page.frames()]. *)
Definition late (c : Call) (w : nat) : Reply (Res c) * nat :=
  (Returns (match c return Promise (Res c) with
            | Frames => ok [frame_a; frame_b]
            | Query CtxPage _ => ok (if (w <? 2)%nat then None else Some 0%nat)
            | Query (CtxFrame f) _ =>
                ok (if (w <? 2)%nat then None
                    else if (frame_id f =? 2)%nat then Some 2%nat else None)
            | BoundingBox el => ok (if (el =? 2)%nat then Some a_box else None)
            | IsIntersectingViewport el => ok (el =? 2)%nat
            | c' => quiet c'
            end),
   match c with
   | Frames => S w
   | _ => w
   end).

End Cases.

(** ** Rules of the program logic *)

Section LogicRules.

Context {W : Type} {X : Type}.
Variable proj : Event -> list X.
Variable driver : forall c : Call, W -> Reply (Res c) * W.

Lemma obs_app (d1 d2 : list Event) : obs proj (d1 ++ d2) = obs proj d1 ++ obs proj d2.
Proof. unfold obs. apply flat_map_app. Qed.

Lemma obs_one (e : Event) : obs proj [e] = proj e.
Proof. unfold obs. simpl. apply app_nil_r. Qed.

Lemma spec_weaken {A} (m : M W A) (P Q : Outcome A -> list X -> Prop) :
  spec proj m P -> (forall o v, P o v -> Q o v) -> spec proj m Q.
Proof.
  intros Hm HPQ st o st' E. destruct (Hm _ _ _ E) as [Hc [Hb [d [Ht HP]]]].
  repeat split; auto. exists d. split; [exact Ht|]. now apply HPQ.
Qed.

(** A computation that leaves the state alone. *)
Lemma spec_pure {A} (m : M W A) (o : Outcome A) (R : Outcome A -> list X -> Prop) :
  (forall st, m st = (o, st)) -> R o [] -> spec proj m R.
Proof.
  intros Hm HR st o' st' E. rewrite Hm in E. inversion E; subst.
  split; [lia|]. split; [auto|]. exists []. split; [now rewrite app_nil_r | exact HR].
Qed.

Lemma spec_ret {A} (a : A) (R : Outcome A -> list X -> Prop) :
  R (Val a) [] -> spec proj (ret (W:=W) a) R.
Proof. intros HR. now apply spec_pure with (o := Val a). Qed.

Lemma spec_throw {A} (e : Error) (R : Outcome A -> list X -> Prop) :
  R (Throw e) [] -> spec proj (throw (W:=W) e) R.
Proof. intros HR. now apply spec_pure with (o := Throw e). Qed.

Lemma spec_exit {A} (c : Z) (R : Outcome A -> list X -> Prop) :
  R (Exit c) [] -> spec proj (process_exit (W:=W) c) R.
Proof. intros HR. now apply spec_pure with (o := Exit c). Qed.

Lemma spec_spent {A} (R : Outcome A -> list X -> Prop) :
  R Spent [] -> spec proj (spent (W:=W) (A:=A)) R.
Proof. intros HR. now apply spec_pure with (o := Spent). Qed.

Lemma spec_emit (e : Event) (R : Outcome unit -> list X -> Prop) :
  R (Val tt) (proj e) -> spec proj (emit (W:=W) e) R.
Proof.
  intros HR st o st' E. inversion E; subst. simpl. split; [lia|]. split; [auto|].
  exists [e]. split; [reflexivity | now rewrite obs_one].
Qed.

Lemma spec_advance (ms : Z) (R : Outcome unit -> list X -> Prop) :
  R (Val tt) [] -> spec proj (advance (W:=W) ms) R.
Proof.
  intros HR st o st' E. inversion E; subst. simpl. split; [lia|]. split; [auto|].
  exists []. split; [now rewrite app_nil_r | exact HR].
Qed.

Lemma spec_bind {A B} (m : M W A) (k : A -> M W B)
      (P : Outcome A -> list X -> Prop) (R : Outcome B -> list X -> Prop) :
  spec proj m P ->
  (forall a v1, P (Val a) v1 -> spec proj (k a) (fun o v2 => R o (v1 ++ v2))) ->
  (forall e v, P (Throw e) v -> R (Throw e) v) ->
  (forall c v, P (Exit c) v -> R (Exit c) v) ->
  (forall v, P Spent v -> R Spent v) ->
  spec proj (bind m k) R.
Proof.
  intros Hm Hk Ht He Hs st o st' E. unfold bind in E.
  destruct (m st) as [o1 st1] eqn:E1.
  destruct (Hm _ _ _ E1) as [Hc1 [Hb1 [d1 [Ht1 HP1]]]].
  destruct o1 as [a|e|c|].
  - destruct (Hk a _ HP1 _ _ _ E) as [Hc2 [Hb2 [d2 [Ht2 HR]]]].
    split; [lia|]. split; [auto|]. exists (d1 ++ d2). split.
    + now rewrite Ht2, Ht1, app_assoc.
    + now rewrite obs_app.
  - inversion E; subst. repeat split; auto. exists d1. split; [exact Ht1|]. now apply Ht.
  - inversion E; subst. repeat split; auto. exists d1. split; [exact Ht1|]. now apply He.
  - inversion E; subst. repeat split; auto. exists d1. split; [exact Ht1|]. now apply Hs.
Qed.

Lemma spec_try_catch {A} (body : M W A) (handler : Error -> M W A)
      (P R : Outcome A -> list X -> Prop) :
  spec proj body P ->
  (forall a v, P (Val a) v -> R (Val a) v) ->
  (forall e v1, P (Throw e) v1 -> spec proj (handler e) (fun o v2 => R o (v1 ++ v2))) ->
  (forall c v, P (Exit c) v -> R (Exit c) v) ->
  (forall v, P Spent v -> R Spent v) ->
  spec proj (try_catch body handler) R.
Proof.
  intros Hb Hv Hh He Hs st o st' E. unfold try_catch in E.
  destruct (body st) as [o1 st1] eqn:E1.
  destruct (Hb _ _ _ E1) as [Hc1 [Hb1 [d1 [Ht1 HP1]]]].
  destruct o1 as [a|e|c|].
  - inversion E; subst. repeat split; auto. exists d1. split; [exact Ht1|]. now apply Hv.
  - destruct (Hh e _ HP1 _ _ _ E) as [Hc2 [Hb2 [d2 [Ht2 HR]]]].
    split; [lia|]. split; [auto|]. exists (d1 ++ d2). split.
    + now rewrite Ht2, Ht1, app_assoc.
    + now rewrite obs_app.
  - inversion E; subst. repeat split; auto. exists d1. split; [exact Ht1|]. now apply He.
  - inversion E; subst. repeat split; auto. exists d1. split; [exact Ht1|]. now apply Hs.
Qed.

(** Rules for a primitive followed by the rest of the computation. *)

Lemma spec_bind_emit {B} (e : Event) (k : unit -> M W B) (R : Outcome B -> list X -> Prop) :
  spec proj (k tt) (fun o v => R o (proj e ++ v)) -> spec proj (bind (emit e) k) R.
Proof.
  intros Hk. apply spec_bind with (P := fun o v => o = Val tt /\ v = proj e).
  - apply spec_emit. auto.
  - intros [] v1 [_ ->]. exact Hk.
  - intros e' v [H _]; discriminate.
  - intros c v [H _]; discriminate.
  - intros v [H _]; discriminate.
Qed.

Lemma spec_bind_advance {B} (ms : Z) (k : unit -> M W B) (R : Outcome B -> list X -> Prop) :
  spec proj (k tt) R -> spec proj (bind (advance ms) k) R.
Proof.
  intros Hk. apply spec_bind with (P := fun o v => o = Val tt /\ v = []).
  - apply spec_advance. auto.
  - intros [] v1 [_ ->]. exact Hk.
  - intros e' v [H _]; discriminate.
  - intros c v [H _]; discriminate.
  - intros v [H _]; discriminate.
Qed.

Lemma spec_bind_now {B} (k : Z -> M W B) (R : Outcome B -> list X -> Prop) :
  (forall t, spec proj (k t) R) -> spec proj (bind Date_now k) R.
Proof.
  intros Hk st o st' E. unfold bind, Date_now in E. exact (Hk _ _ _ _ E).
Qed.

Lemma spec_bind_get_browser {B} (k : option unit -> M W B) (R : Outcome B -> list X -> Prop) :
  (forall b, spec proj (k b) R) -> spec proj (bind get_browser k) R.
Proof.
  intros Hk st o st' E. unfold bind, get_browser in E. exact (Hk _ _ _ _ E).
Qed.

Lemma spec_sleep (site : SleepSite) (ms : Z) (R : Outcome unit -> list X -> Prop) :
  R (Val tt) (proj (EvSleep site ms)) -> spec proj (sleep (W:=W) site ms) R.
Proof.
  intros HR. unfold sleep. apply spec_bind_emit. apply spec_advance.
  now rewrite app_nil_r.
Qed.

Lemma spec_bind_sleep {B} (site : SleepSite) (ms : Z) (k : unit -> M W B)
      (R : Outcome B -> list X -> Prop) :
  spec proj (k tt) (fun o v => R o (proj (EvSleep site ms) ++ v)) ->
  spec proj (bind (sleep site ms) k) R.
Proof.
  intros Hk. apply spec_bind with (P := fun o v => o = Val tt /\ v = proj (EvSleep site ms)).
  - apply spec_sleep. auto.
  - intros [] v1 [_ ->]. exact Hk.
  - intros e' v [H _]; discriminate.
  - intros c v [H _]; discriminate.
  - intros v [H _]; discriminate.
Qed.

Lemma spec_start (c : Call) (R : Outcome (Promise (Res c)) -> list X -> Prop) :
  (forall p, R (Val p) (proj (EvCall c (settled p)))) ->
  (forall e w, fst (driver c w) = Throws e -> R (Throw e) (proj (EvCall c (Rejected e)))) ->
  spec proj (start driver c) R.
Proof.
  intros HR HT st o st' E. unfold start in E.
  destruct (driver c (world st)) as [r w'] eqn:Ed. inversion E; subst. simpl.
  split; [lia|]. split; [auto|]. exists [EvCall c (ending r)]. split; [reflexivity|].
  rewrite obs_one. destruct r as [p|e]; cbn [ending].
  - apply HR.
  - apply (HT e (world st)). now rewrite Ed.
Qed.

Lemma spec_bind_start {B} (c : Call) (k : Promise (Res c) -> M W B)
      (R : Outcome B -> list X -> Prop) :
  (forall p, spec proj (k p) (fun o v => R o (proj (EvCall c (settled p)) ++ v))) ->
  (forall e w, fst (driver c w) = Throws e -> R (Throw e) (proj (EvCall c (Rejected e)))) ->
  spec proj (bind (start driver c) k) R.
Proof.
  intros Hk Ht.
  apply spec_bind with
    (P := fun o v =>
            (exists p, o = Val p /\ v = proj (EvCall c (settled p))) \/
            (exists e w, o = Throw e /\ fst (driver c w) = Throws e /\
                         v = proj (EvCall c (Rejected e)))).
  - apply spec_start; [intros p; left; now exists p | intros e w He; right; now exists e, w].
  - intros p v1 [[p' [E ->]] | [e [w [E _]]]]; [|discriminate]. inversion E; subst p'. apply Hk.
  - intros e v [[p [E _]] | [e' [w [E [He ->]]]]]; [discriminate|].
    inversion E; subst e'. now apply (Ht e w).
  - intros e v [[p [H _]] | [e' [w [H _]]]]; discriminate.
  - intros v [[p [H _]] | [e' [w [H _]]]]; discriminate.
Qed.

Lemma spec_await {A} (p : Promise A) (R : Outcome A -> list X -> Prop) :
  R (outcome_of (settled p)) [] -> spec proj (await (W:=W) p) R.
Proof.
  intros HR. unfold await. apply spec_bind_advance.
  destruct (settled p); simpl in HR; [apply spec_ret | apply spec_throw]; exact HR.
Qed.

Lemma spec_drive (c : Call) (R : Outcome (Res c) -> list X -> Prop) :
  (forall s, R (outcome_of s) (proj (EvCall c s))) -> spec proj (drive driver c) R.
Proof.
  intros HR. unfold drive. apply spec_bind_start.
  - intros p. apply spec_await. rewrite app_nil_r. apply HR.
  - intros e w _. apply (HR (Rejected e)).
Qed.

Lemma spec_bind_drive {B} (c : Call) (k : Res c -> M W B) (R : Outcome B -> list X -> Prop) :
  (forall a, spec proj (k a) (fun o v => R o (proj (EvCall c (Resolved a)) ++ v))) ->
  (forall e, R (Throw e) (proj (EvCall c (Rejected e)))) ->
  spec proj (bind (drive driver c) k) R.
Proof.
  intros Hk Ht.
  apply spec_bind with (P := fun o v => exists s, o = outcome_of s /\ v = proj (EvCall c s)).
  - apply spec_drive. intros s. now exists s.
  - intros a v1 [[a'|e'] [E ->]]; inversion E; subst. apply Hk.
  - intros e v [[a'|e'] [E ->]]; inversion E; subst. apply Ht.
  - intros e v [[a'|e'] [E _]]; discriminate.
  - intros v [[a'|e'] [E _]]; discriminate.
Qed.

End LogicRules.

(** Unfolding [bind] along a known first step. *)

Lemma bind_Val {W A B} (m : M W A) (k : A -> M W B) st a st1 :
  m st = (Val a, st1) -> bind m k st = k a st1.
Proof. intros E. unfold bind. now rewrite E. Qed.

Lemma bind_Throw {W A B} (m : M W A) (k : A -> M W B) st e st1 :
  m st = (Throw e, st1) -> bind m k st = (Throw e, st1).
Proof. intros E. unfold bind. now rewrite E. Qed.

Lemma bind_Exit {W A B} (m : M W A) (k : A -> M W B) st c st1 :
  m st = (Exit c, st1) -> bind m k st = (Exit c, st1).
Proof. intros E. unfold bind. now rewrite E. Qed.


(** ** The coordinator, as its marks show it *)

Lemma spec_bind_ret {W X A B} (proj : Event -> list X) (a : A) (k : A -> M W B)
      (R : Outcome B -> list X -> Prop) :
  spec proj (k a) R -> spec proj (bind (ret a) k) R.
Proof. intros Hk. exact Hk. Qed.

Lemma spec_bind_throw {W X A B} (proj : Event -> list X) (e : Error) (k : A -> M W B)
      (R : Outcome B -> list X -> Prop) :
  R (Throw e) [] -> spec proj (bind (throw e) k) R.
Proof. intros HR. now apply spec_pure with (o := Throw e). Qed.

(** One step of symbolic execution through a primitive. *)
Ltac wp_step :=
  lazymatch goal with
  | |- spec _ (bind (emit _) _) _ => apply spec_bind_emit
  | |- spec _ (bind (console_log _) _) _ => apply spec_bind_emit
  | |- spec _ (bind (console_warn _) _) _ => apply spec_bind_emit
  | |- spec _ (bind (console_error _ _) _) _ => apply spec_bind_emit
  | |- spec _ (bind (sleep _ _) _) _ => apply spec_bind_sleep
  | |- spec _ (bind (advance _) _) _ => apply spec_bind_advance
  | |- spec _ (bind Date_now _) _ => apply spec_bind_now; intros ?
  | |- spec _ (bind get_browser _) _ => apply spec_bind_get_browser; intros ?
  | |- spec _ (bind (ret _) _) _ => apply spec_bind_ret
  | |- spec _ (bind (drive _ _) _) _ => apply spec_bind_drive; [intros ? | intros ?]
  | |- spec _ (bind (start _ _) _) _ => apply spec_bind_start; [intros ? | intros ? ? ?]
  | |- spec _ (emit _) _ => apply spec_emit
  | |- spec _ (console_log _) _ => apply spec_emit
  | |- spec _ (console_warn _) _ => apply spec_emit
  | |- spec _ (console_error _ _) _ => apply spec_emit
  | |- spec _ (sleep _ _) _ => apply spec_sleep
  | |- spec _ (ret _) _ => apply spec_ret
  | |- spec _ (throw _) _ => apply spec_throw
  | |- spec _ (process_exit _) _ => apply spec_exit
  | |- spec _ spent _ => apply spec_spent
  | |- spec _ (await _) _ => apply spec_await
  | |- spec _ (drive _ _) _ => apply spec_drive; intros ?
  end.

Ltac wp := repeat (wp_step; cbn [app]).

Section Coordinator.

Context {W : Type}.
Variable driver : forall c : Call, W -> Reply (Res c) * W.
Variable env : Env.

Lemma spec_appendFailureSummary (lines : list string) :
  spec mark (appendFailureSummary driver env lines)
    (fun o v =>
       o = Val tt /\
       if truthy (GITHUB_STEP_SUMMARY env) then
         exists noise,
           v = MSummary (or_else (GITHUB_STEP_SUMMARY env) EmptyString) (buildFailureSummary lines) :: noise /\
           (noise = [] \/ exists we, noise = [MErrorObj "Failed to write failure summary:" we])
       else v = []).
Proof.
  unfold appendFailureSummary.
  destruct (truthy (GITHUB_STEP_SUMMARY env)); cbn [negb].
  - eapply spec_try_catch.
    + apply spec_drive with (R := fun o v =>
        (o = Val tt \/ exists e, o = Throw e) /\
        v = [MSummary (or_else (GITHUB_STEP_SUMMARY env) EmptyString) (buildFailureSummary lines)]).
      intros [u|e]; (split; [|reflexivity]); cbn in *; [destruct u; now left | right; eauto].
    + intros [] v [_ ->]. split; [reflexivity|]. exists []. auto.
    + intros e v [_ ->]. wp. cbn. split; [reflexivity|]. eexists. split; [reflexivity|]. right. eauto.
    + intros c v [[H|[e H]] _]; discriminate.
    + intros v [[H|[e H]] _]; discriminate.
  - wp. auto.
Qed.

Lemma spec_fail {A} (reason : string) (err : option Error) :
  spec mark (fail (A:=A) driver env reason err)
    (fun o v => o = Exit 1 /\ Reported env reason err v).
Proof.
  unfold fail. wp.
  apply spec_bind with (P := fun o v =>
    o = Val tt /\ v = match err with Some e => [MErrorObj EmptyString e] | None => [] end).
  - destruct err; wp; auto.
  - intros [] v1 [_ ->].
    eapply spec_bind; [apply spec_appendFailureSummary | | | |].
    + intros [] v2 [_ Hv]. wp. split; [reflexivity|].
      unfold Reported, fail_head. exists v2. rewrite app_nil_r.
      split; [now destruct err|]. exact Hv.
    + intros e v [H _]; discriminate.
    + intros c v [H _]; discriminate.
    + intros v [H _]; discriminate.
  - intros e v [H _]; discriminate.
  - intros c v [H _]; discriminate.
  - intros v [H _]; discriminate.
Qed.

(** [fail] followed by anything is [fail]. *)
Lemma spec_bind_fail {A B} (reason : string) (err : option Error) (k : A -> M W B)
      (R : Outcome B -> list Mark -> Prop) :
  (forall v, Reported env reason err v -> R (Exit 1) v) ->
  spec mark (bind (fail driver env reason err) k) R.
Proof.
  intros HR. eapply spec_bind; [apply spec_fail | | | |].
  - intros a v [H _]; discriminate.
  - intros e v [H _]; discriminate.
  - intros c v [H Hv]. inversion H; subst. now apply HR.
  - intros v [H _]; discriminate.
Qed.

Lemma spec_scan (contexts : list (Ctx * string)) :
  Forall (fun cl => truthy_string (snd cl) = true) contexts ->
  spec mark (Retrying.scan driver contexts) Located.
Proof.
  induction contexts as [|[ctx label] rest IH]; intros Hl; cbn [Retrying.scan].
  - wp. reflexivity.
  - inversion Hl as [|? ? Hlabel Hrest]; subst. specialize (IH Hrest). cbn in Hlabel.
    apply spec_bind_drive; [intros [button|] | intros e]; cbn [mark mark_call app].
    + apply spec_bind_emit; cbn [mark app String.prefix].
      apply spec_bind_drive; [intros ? | intros e; now left]; cbn [mark mark_call app].
      apply spec_bind_drive; [intros box | intros e; now left]; cbn [mark mark_call app].
      apply spec_bind_drive; [intros inViewport | intros e; now left]; cbn [mark mark_call app].
      apply spec_bind_emit; cbn [mark app].
      destruct (negb match box with Some _ => true | None => false end && negb inViewport).
      * exact IH.
      * apply spec_bind_sleep; cbn [mark app].
        apply spec_bind_drive; [intros ? | intros e; now right]; cbn [mark mark_call app].
        apply spec_bind_emit; cbn [mark app].
        apply spec_ret. split; [reflexivity | exact Hlabel].
    + apply spec_bind_emit; cbn [mark app]. exact IH.
    + now left.
Qed.

Lemma contexts_of_labelled (frames : list Frame) :
  Forall (fun cl => truthy_string (snd cl) = true) (Retrying.contexts_of frames).
Proof.
  unfold Retrying.contexts_of. constructor; [reflexivity|].
  apply Forall_forall. intros cl Hin. apply in_map_iff in Hin.
  destruct Hin as [frame [<- _]]. reflexivity.
Qed.

Lemma spec_poll (rounds : nat) (pollDeadline : Z) :
  spec mark (Retrying.poll driver rounds pollDeadline)
    (fun o v => match o with Spent => v = [] | _ => Located o v end).
Proof.
  induction rounds as [|rounds IH]; cbn [Retrying.poll];
    apply spec_bind_now; intros t; destruct (t <? pollDeadline).
  - wp. reflexivity.
  - wp. reflexivity.
  - apply spec_bind_drive; [intros frames | intros e; now left]; cbn [mark mark_call app].
    eapply spec_bind; [apply spec_scan, contexts_of_labelled | | | |].
    + intros [c|] v1 Hv1; cbn in Hv1.
      * destruct Hv1 as [-> Hc]. wp. split; [reflexivity | exact Hc].
      * subst v1. apply spec_bind_sleep; cbn [mark app]. exact IH.
    + intros e v Hv. exact Hv.
    + intros c v [].
    + intros v [].
  - wp. reflexivity.
Qed.

(** The clock alone decides when the polling loop stops: it never runs out
    of rounds. *)
Lemma poll_not_spent (rounds : nat) (pollDeadline : Z) :
  forall st,
    pollDeadline - clock st <= Retrying.WAKE_BUTTON_POLL_INTERVAL_MS * Z.of_nat rounds ->
    fst (Retrying.poll driver rounds pollDeadline st) <> Spent.
Proof.
  induction rounds as [|rounds IH]; intros st Hst; cbn [Retrying.poll];
    rewrite (bind_Val Date_now _ st (clock st) st eq_refl);
    destruct (clock st <? pollDeadline) eqn:Hlt;
    try (cbn; discriminate).
  - apply Z.ltb_lt in Hlt. unfold Retrying.WAKE_BUTTON_POLL_INTERVAL_MS in Hst. lia.
  - apply Z.ltb_lt in Hlt.
    destruct (drive driver Frames st) as [o1 st1] eqn:E1.
    assert (H1 : clock st <= clock st1 /\ o1 <> Spent /\ forall c, o1 <> Exit c).
    { assert (Hd : spec mark (drive driver Frames)
                     (fun o _ => o <> Spent /\ forall c, o <> Exit c)).
      { apply spec_drive. intros [a|e]; split; intros; discriminate. }
      destruct (Hd _ _ _ E1) as [Hc [_ [d [_ Ho]]]]. tauto. }
    destruct H1 as [Hc1 [Hs1 He1]].
    destruct o1 as [frames|e|c|]; try congruence;
      [ rewrite (bind_Val _ _ _ _ _ E1)
      | rewrite (bind_Throw _ _ _ _ _ E1); cbn; discriminate ].
    destruct (Retrying.scan driver (Retrying.contexts_of frames) st1) as [o2 st2] eqn:E2.
    destruct (spec_scan _ (contexts_of_labelled frames) _ _ _ E2) as [Hc2 [_ [d [_ Ho2]]]].
    destruct o2 as [[c|]|e|c|]; try contradiction;
      [ rewrite (bind_Val _ _ _ _ _ E2); cbn; discriminate
      | rewrite (bind_Val _ _ _ _ _ E2)
      | rewrite (bind_Throw _ _ _ _ _ E2); cbn; discriminate ].
    erewrite bind_Val by reflexivity.
    apply IH. cbn [clock snd sleep emit advance bind].
    unfold Retrying.WAKE_BUTTON_POLL_INTERVAL_MS in *. lia.
Qed.

Lemma spec_findAndClickWakeButton :
  spec mark (Retrying.findAndClickWakeButton driver) Located.
Proof.
  intros st o st' E.
  assert (Hs : o <> Spent).
  { pose proof (poll_not_spent Retrying.poll_rounds
                  (clock st + Retrying.WAKE_BUTTON_POLL_TIMEOUT_MS) st) as H.
    unfold Retrying.findAndClickWakeButton in E.
    rewrite (bind_Val Date_now _ st (clock st) st eq_refl) in E.
    rewrite E in H. apply H.
    replace (Z.of_nat Retrying.poll_rounds) with 60 by reflexivity.
    unfold Retrying.WAKE_BUTTON_POLL_TIMEOUT_MS, Retrying.WAKE_BUTTON_POLL_INTERVAL_MS. lia. }
  unfold Retrying.findAndClickWakeButton in E.
  destruct (spec_bind_now mark _ _
              (fun t => spec_poll Retrying.poll_rounds (t + Retrying.WAKE_BUTTON_POLL_TIMEOUT_MS))
              _ _ _ E) as [Hc [Hb [d [Ht Ho]]]].
  repeat split; auto. exists d. split; [exact Ht|].
  destruct o; auto. congruence.
Qed.

Lemma race_caught {A} (p1 p2 : Promise A) :
  exists x, settled (Promise_race (catch_null p1) (catch_null p2)) = Resolved x.
Proof.
  unfold Promise_race, catch_null. cbn.
  destruct (took p2 <? took p1)%N; cbn;
    [destruct (settled p2) | destruct (settled p1)]; eauto.
Qed.

(** The readiness step completes however the two waits settle, once both
    have returned their promise; a wait that throws before it does enters the
    handler, which reports and ends the process. *)
Lemma spec_await_ready (lastClickedContext : Ctx) :
  spec mark (Retrying.await_ready driver env lastClickedContext)
    (fun o v =>
       (o = Val tt /\ v = []) \/
       (exists e, o = Exit 1 /\ WaitThrew driver e /\
                  Reported env Retrying.READY_FAILURE (Some e) v)).
Proof.
  unfold Retrying.await_ready.
  eapply spec_try_catch
    with (P := fun o v => (o = Val tt \/ exists e, o = Throw e /\ WaitThrew driver e) /\ v = []).
  - apply spec_bind_start; [intros p1 | intros e w He]; cbn [mark mark_call app].
    + apply spec_bind_start; [intros p2 | intros e w He]; cbn [mark mark_call app].
      * eapply spec_bind with (P := fun o v => (exists x, o = Val x) /\ v = []).
        -- apply spec_await. destruct (race_caught p1 p2) as [x Hx].
           cbn in Hx |- *. rewrite Hx. cbn. eauto.
        -- intros a v1 [_ ->]. wp. auto.
        -- intros e v [[x H] _]; discriminate.
        -- intros c v [[x H] _]; discriminate.
        -- intros v [[x H] _]; discriminate.
      * split; [|reflexivity]. right. exists e. split; [reflexivity|].
        now exists (WaitForNavigation Retrying.WAKE_READY_TIMEOUT_MS), w.
    + split; [|reflexivity]. right. exists e. split; [reflexivity|].
      now exists (WaitForFunction lastClickedContext WAKE_UP_BUTTON_SELECTOR
                    Retrying.WAKE_READY_TIMEOUT_MS), w.
  - intros [] v [_ ->]. now left.
  - intros e v1 [[H | [e' [H Hw]]] ->]; [discriminate|]. inversion H; subst e'.
    eapply spec_weaken; [apply spec_fail|].
    intros o v [-> Hr]. right. exists e. auto.
  - intros c v [[H | [e [H _]]] _]; discriminate.
  - intros v [[H | [e [H _]]] _]; discriminate.
Qed.

Lemma spec_requery (lastClickedContext : Ctx) :
  spec mark (Retrying.requery driver lastClickedContext)
    (fun o v => ((exists b, o = Val b) \/ (exists e, o = Throw e)) /\ v = []).
Proof.
  unfold Retrying.requery.
  apply spec_bind_start; [intros p | intros e w He; split; [eauto | reflexivity]];
    cbn [mark mark_call app].
  eapply spec_try_catch
    with (P := fun o v => ((exists b, o = Val b) \/ (exists e, o = Throw e)) /\ v = []).
  - apply spec_await. destruct (settled p); cbn; eauto.
  - auto.
  - intros e v1 [_ ->].
    destruct (includes (message e) "Execution context was destroyed"
              || includes (message e) "Cannot find context"); wp; eauto.
  - intros c v [[[b H]|[e H]] _]; discriminate.
  - intros v [[[b H]|[e H]] _]; discriminate.
Qed.

Lemma spec_confirm (attempt : Z) (clicked : Retrying.Clicked) :
  spec mark (Retrying.confirm driver env attempt clicked)
    (fun o v =>
       match o with
       | Val (ClickedAndConfirmedGone l) =>
           l = Retrying.label clicked /\ v = [MAttempt attempt (ClickedAndConfirmedGone l)]
       | Val (ClickedButStillPresent l) =>
           l = Retrying.label clicked /\ v = [MAttempt attempt (ClickedButStillPresent l)]
       | Throw _ => v = []
       | Exit c =>
           c = 1 /\
           exists e, WaitThrew driver e /\ Reported env Retrying.READY_FAILURE (Some e) v
       | _ => False
       end).
Proof.
  unfold Retrying.confirm.
  apply spec_bind_emit; simpl (mark _); cbn [app].
  eapply spec_bind; [apply spec_await_ready | | | |].
  - intros [] v1 [[_ ->] | [e [H _]]]; [|discriminate].
    eapply spec_bind; [apply spec_requery | | | |].
    + intros b v2 [_ ->]. apply spec_bind_emit. apply spec_ret. destruct b; cbn; auto.
    + intros e v [_ ->]. reflexivity.
    + intros k v [[[b H]|[e H]] _]; discriminate.
    + intros v [[[b H]|[e H]] _]; discriminate.
  - intros e v [[H _] | [e' [H _]]]; discriminate.
  - intros k v [[H _] | [e [H [Hw Hr]]]]; [discriminate|]. inversion H; subst k.
    split; [reflexivity|]. exists e. auto.
  - intros v [[H _] | [e [H _]]]; discriminate.
Qed.

Lemma spec_wakeAttempt (attempt : Z) :
  spec mark (Retrying.wakeAttempt driver env attempt) (Attempted driver env attempt).
Proof.
  unfold Retrying.wakeAttempt.
  eapply spec_bind; [apply spec_findAndClickWakeButton | | | |].
  - intros [c|] v1 Hv1; cbn in Hv1.
    + destruct Hv1 as [-> Hc].
      eapply spec_weaken; [apply spec_confirm|].
      intros [[|l|l]|e|k|] v Hv; cbn; try contradiction.
      * destruct Hv as [-> ->]. auto.
      * destruct Hv as [-> ->]. reflexivity.
      * subst v. right; right. eauto.
      * destruct Hv as [-> [e [Hw Hr]]]. split; [reflexivity|].
        exists (Retrying.label c), e, v. auto.
    + subst v1. wp. reflexivity.
  - intros e v [->| ->]; cbn; auto.
  - intros c v [].
  - intros v [].
Qed.

Lemma spec_for_attempts (passes : nat) (startedAt : Z) :
  forall attempt lastClickedLabel,
    Retrying.WAKE_MAX_ATTEMPTS - attempt < Z.of_nat passes ->
    spec mark (Retrying.for_attempts driver env passes startedAt attempt lastClickedLabel)
      (Looped driver env attempt lastClickedLabel).
Proof.
  induction passes as [|passes IH]; intros attempt last Hp; cbn [Retrying.for_attempts];
    destruct (attempt <=? Retrying.WAKE_MAX_ATTEMPTS) eqn:Hle;
    try (apply spec_ret; apply loop_over; apply Z.leb_gt in Hle; lia).
  - apply Z.leb_le in Hle. lia.
  - apply Z.leb_le in Hle.
    eapply spec_bind; [apply spec_wakeAttempt | | | |].
    + intros [|l|l] v1 Hv1; cbn in Hv1; [subst v1 | destruct Hv1 as [-> Hl] | subst v1].
      * apply spec_bind_emit; simpl (mark _); cbn [app].
        apply spec_bind_now; intros t.
        apply spec_bind_emit; simpl (mark _); cbn [app].
        apply spec_ret. now apply loop_awake.
      * apply spec_bind_emit; simpl (mark _); cbn [app]. apply spec_ret. now apply loop_gone.
      * destruct (attempt <? Retrying.WAKE_MAX_ATTEMPTS) eqn:Hlt.
        -- apply Z.ltb_lt in Hlt.
           eapply spec_bind with (P := fun o v =>
             o = Val tt /\
             v = [MBackoff (Retrying.WAKE_RETRY_BACKOFF_BASE_MS * 2 ^ (attempt - 1))]).
           ++ apply spec_bind_emit; simpl (mark _); cbn [app]. apply spec_sleep. auto.
           ++ intros [] v2 [_ ->].
              eapply spec_weaken; [apply IH; lia|].
              intros o v Hv. now apply (loop_retry driver env attempt last l o v).
           ++ intros e v [H _]; discriminate.
           ++ intros c v [H _]; discriminate.
           ++ intros v [H _]; discriminate.
        -- apply Z.ltb_ge in Hlt. apply spec_bind_fail. intros v Hv.
           apply (loop_exhausted driver env attempt last l v); [lia | exact Hv].
    + intros e v Hv. now apply loop_throw.
    + intros c v [-> [l [e [w [Hw [-> Hr]]]]]]. now apply loop_unready with (e := e).
    + intros v [].
Qed.

Lemma Looped_not_spent attempt last v : ~ Looped driver env attempt last Spent v.
Proof.
  intros H. remember Spent as o eqn:Ho. induction H; try discriminate. auto.
Qed.

Lemma spec_session (startedAt : Z) :
  spec mark (Retrying.session driver env startedAt) (Sessioned driver env).
Proof.
  unfold Retrying.session.
  apply spec_bind_drive; [intros ? | intros e; left; eauto]; simpl (mark _); cbn [app].
  apply spec_bind_drive; [intros ? | intros e; left; eauto]; simpl (mark _); cbn [app].
  apply spec_bind_drive; [intros ? | intros e; left; eauto]; simpl (mark _); cbn [app].
  apply spec_bind_drive; [intros [r|] | intros e]; simpl (mark _); cbn [app].
  - apply spec_bind_emit; simpl (mark _); cbn [app].
    destruct (status r >=? 400) eqn:Hs.
    + apply spec_bind_throw. right; left.
      exists (Resolved (Some r)), (new_Error ("Unexpected response status: "
                                               ++ string_of_Z (status r))%string).
      repeat split. right; right. exists r. repeat split. apply Z.geb_le in Hs. lia.
    + apply spec_bind_ret.
      apply spec_bind_emit; simpl (mark _); cbn [app].
      apply spec_bind_sleep; simpl (mark _); cbn [app].
      assert (Hr : status r < 400).
      { rewrite Z.geb_leb in Hs. apply Z.leb_gt in Hs. exact Hs. }
      eapply spec_bind; [apply spec_for_attempts; cbn; lia | | | |].
      * intros [|last] v1 Hv1.
        -- apply spec_ret. right; right. exists r, (Val Retrying.Returned), v1.
           rewrite app_nil_r. auto.
        -- apply spec_bind_now; intros t. apply spec_emit. simpl (mark _).
           right; right. exists r, (Val (Retrying.Fell last)), v1.
           repeat split; auto. eexists. split; reflexivity.
      * intros e v Hv. right; right. exists r, (Throw e), v. auto.
      * intros c v Hv. right; right. exists r, (Exit c), v. auto.
      * intros v Hv. now apply Looped_not_spent in Hv.
  - apply spec_throw. right; left.
    exists (Resolved None), (new_Error "No response received from the Streamlit app").
    repeat split. right; left. auto.
  - right; left. exists (Rejected e), e. repeat split. now left.
Qed.

Lemma Looped_exit_code attempt last c v : Looped driver env attempt last (Exit c) v -> c = 1.
Proof.
  intros H. remember (Exit c) as o eqn:Ho.
  induction H; try discriminate; auto; now inversion Ho.
Qed.

Lemma marks_app (d1 d2 : list Event) : marks (d1 ++ d2) = marks d1 ++ marks d2.
Proof. apply (obs_app mark). Qed.

(** What ends a run that failed in the outer [try]: the handler reports
    and the process exits; the [finally] clause is not reached. *)
Lemma fail_runs {A} (reason : string) (err : option Error) (st : State W) :
  exists st' d,
    fail (A:=A) driver env reason err st = (Exit 1, st') /\
    trace st' = trace st ++ d /\ Reported env reason err (marks d).
Proof.
  destruct (fail (A:=A) driver env reason err st) as [o st'] eqn:E.
  destruct (spec_fail reason err _ _ _ E) as [_ [_ [d [Ht [-> Hr]]]]].
  exists st', d. auto.
Qed.

Lemma close_browser_runs (st : State W) :
  browser st = Some tt ->
  exists st' d,
    close_browser driver st = (Val tt, st') /\
    trace st' = trace st ++ d /\ Closed (marks d).
Proof.
  intros Hb. unfold close_browser.
  rewrite (bind_Val get_browser _ st (Some tt) st) by (unfold get_browser; now rewrite Hb).
  assert (Hs : spec mark
                 (try_catch (drive driver Close)
                    (fun closeError => console_error "Failed to close browser" (Some closeError)))
                 (fun o v => o = Val tt /\ Closed v)).
  { eapply spec_try_catch
      with (P := fun o v => (o = Val tt \/ exists e, o = Throw e) /\ v = [MClose]).
    - apply (spec_drive mark driver Close). intros [[]|e]; cbn; eauto.
    - intros [] v [_ ->]. split; [reflexivity | now left].
    - intros e v1 [_ ->]. apply spec_emit. split; [reflexivity|]. right. now exists e.
    - intros c v [[H|[e H]] _]; discriminate.
    - intros v [[H|[e H]] _]; discriminate. }
  destruct (try_catch _ _ st) as [o st'] eqn:E.
  destruct (Hs _ _ _ E) as [_ [_ [d [Ht [-> Hc]]]]].
  exists st', d. auto.
Qed.

Lemma body_runs (startedAt : Z) (st : State W) (o : Outcome unit) (st' : State W) :
  Retrying.body driver env startedAt st = (o, st') ->
  exists d, trace st' = trace st ++ d /\
    ((exists e, o = Throw e /\ marks d = [MLaunch]) \/
     (exists v, marks d = MLaunch :: v /\ Sessioned driver env o v /\ browser st' = Some tt)).
Proof.
  intros E. unfold Retrying.body in E.
  destruct (drive driver Launch st) as [o1 st1] eqn:E1.
  assert (Hl : spec mark (drive driver Launch)
                 (fun o v => ((exists a, o = Val a) \/ exists e, o = Throw e) /\ v = [MLaunch])).
  { apply (spec_drive mark driver Launch). intros [a|e]; cbn; eauto. }
  destruct (Hl _ _ _ E1) as [_ [_ [d1 [Ht1 [Ho1 Hv1]]]]].
  destruct o1 as [b|e|c|]; try (destruct Ho1 as [[? H]|[? H]]; discriminate).
  - rewrite (bind_Val _ _ _ _ _ E1) in E.
    erewrite bind_Val in E by reflexivity.
    destruct (spec_session startedAt _ _ _ E) as [_ [Hb [d2 [Ht2 Hs]]]].
    exists (d1 ++ d2). split.
    + rewrite Ht2. cbn [trace]. now rewrite Ht1, app_assoc.
    + right. exists (marks d2). rewrite marks_app.
      change (marks d1) with (obs mark d1). rewrite Hv1.
      repeat split; auto. apply Hb. cbn. now destruct b.
  - rewrite (bind_Throw _ _ _ _ _ E1) in E. inversion E; subst.
    exists d1. split; [exact Ht1|]. left. exists e. auto.
Qed.

(** Every run of the retrying script has one of the shapes of [Ran]. *)
Lemma main_runs (st : State W) (out : Outcome unit) (st' : State W) :
  Retrying.main driver env st = (out, st') ->
  exists d, trace st' = trace st ++ d /\ Ran driver env out (marks d).
Proof.
  intros E. unfold Retrying.main in E.
  destruct (truthy (STREAMLIT_URL env)) eqn:Hu; cbn [negb] in E.
  - rewrite (bind_Val (ret tt) _ st tt st eq_refl) in E.
    erewrite bind_Val in E by reflexivity.
    erewrite bind_Val in E by reflexivity.
    erewrite bind_Val in E by reflexivity.
    cbn [clock] in E.
    unfold try_finally, try_catch in E.
    match type of E with
    | context [Retrying.body driver env ?t ?s] =>
        destruct (Retrying.body driver env t s) as [ob sb] eqn:Eb
    end.
    destruct (body_runs _ _ _ _ Eb) as [d1 [Ht1 Hd1]]. cbn [trace] in Ht1.
    assert (Hfail : forall e v,
               ob = Throw e -> marks d1 = MLaunch :: v ->
               (v = [] \/ exists s, NavFailed s e /\ v = [MGoto s]) \/
               (exists r lv, status r < 400 /\ Looped driver env 1 None (Throw e) lv /\
                             v = MGoto (Resolved (Some r)) :: lv) ->
               exists d, trace st' = trace st ++ d /\ Ran driver env out (marks d)).
    { intros e v -> Hm Hv.
      destruct (fail_runs (A:=unit) Retrying.GENERIC_FAILURE (Some e) sb)
        as [sf [df [Ef [Htf Hr]]]].
      rewrite Ef in E. inversion E; subst out st'.
      eexists. split.
      { rewrite Htf, Ht1, <- !app_assoc. reflexivity. }
      rewrite !marks_app. simpl (marks [_]). rewrite Hm. cbn [app].
      destruct Hv as [[-> | [s [Hn ->]]] | [r [lv [Hr4 [Hl ->]]]]].
      - now apply ran_no_page with (e := e).
      - now apply ran_navigation with (e := e).
      - now apply (ran_crashed driver env r lv e (marks df)). }
    destruct Hd1 as [[e [-> Hm]] | [v [Hm [Hs Hb]]]].
    + apply (Hfail e []); auto.
    + destruct Hs as [[e [-> ->]] | [[s [e [Hn [-> ->]]]] | [r [lo [lv [Hr [Hl Hlo]]]]]]].
      * apply (Hfail e []); auto.
      * apply (Hfail e [MGoto s]); auto. left. right. eauto.
      * destruct lo as [[|last]|e|c|].
        -- destruct Hlo as [-> ->].
           destruct (close_browser_runs sb Hb) as [sc [dc [Ec [Htc Hc]]]].
           rewrite (bind_Val _ _ _ _ _ Ec) in E. inversion E; subst out st'.
           eexists. split.
           { rewrite Htc, Ht1, <- !app_assoc. reflexivity. }
           rewrite !marks_app. simpl (marks [_]). rewrite Hm. cbn [app].
           now apply ran_awake.
        -- destruct Hlo as [t [-> ->]].
           destruct (close_browser_runs sb Hb) as [sc [dc [Ec [Htc Hc]]]].
           rewrite (bind_Val _ _ _ _ _ Ec) in E. inversion E; subst out st'.
           eexists. split.
           { rewrite Htc, Ht1, <- !app_assoc. reflexivity. }
           rewrite !marks_app. simpl (marks [_]). rewrite Hm. cbn [app].
           rewrite <- app_assoc. cbn [app]. now apply ran_woken.
        -- destruct Hlo as [-> ->]. apply (Hfail e (MGoto (Resolved (Some r)) :: lv)); auto.
           right. eauto.
        -- destruct Hlo as [-> ->]. inversion E; subst out st'.
           pose proof (Looped_exit_code _ _ _ _ Hl) as ->.
           eexists. split.
           { rewrite Ht1, <- !app_assoc. reflexivity. }
           rewrite !marks_app. simpl (marks [_]). rewrite Hm. cbn [app].
           now apply ran_exhausted.
        -- contradiction.
  - destruct (fail_runs (A:=unit) "STREAMLIT_URL env var is required" None st)
      as [sf [df [Ef [Htf Hr]]]].
    rewrite (bind_Exit _ _ _ _ _ Ef) in E. inversion E; subst out st'.
    exists df. split; [exact Htf|]. now apply ran_unconfigured.
Qed.

End Coordinator.

(** ** The locator, as its probes show it *)

Section Locator.

Context {W : Type}.
Variable driver : forall c : Call, W -> Reply (Res c) * W.

Lemma spec_scan_sights (contexts : list (Ctx * string)) :
  spec sight (Retrying.scan driver contexts) (Scanned contexts).
Proof.
  induction contexts as [|[ctx label] rest IH]; cbn [Retrying.scan].
  - apply spec_ret. constructor.
  - apply spec_bind_drive; [intros [button|] | intros e]; simpl (sight _); cbn [app].
    + apply spec_bind_emit; simpl (sight _); cbn [app].
      apply spec_bind_drive; [intros ? | intros e; apply scanned_probe_failed];
        simpl (sight _); cbn [app].
      apply spec_bind_drive; [intros box | intros e; apply scanned_probe_failed];
        simpl (sight _); cbn [app].
      apply spec_bind_drive; [intros inViewport | intros e; apply scanned_probe_failed];
        simpl (sight _); cbn [app].
      apply spec_bind_emit; simpl (sight _); cbn [app].
      destruct (negb match box with Some _ => true | None => false end && negb inViewport)
        eqn:Hskip.
      * eapply spec_weaken; [exact IH|]. intros o v Hv.
        apply scanned_skip; [|exact Hv].
        unfold Retrying.actionable. now rewrite Hskip.
      * apply spec_bind_sleep; simpl (sight _); cbn [app].
        apply spec_bind_drive; [intros ? | intros e]; simpl (sight _); cbn [app].
        -- apply spec_bind_emit; simpl (sight _); cbn [app]. apply spec_ret.
           apply scanned_hit. unfold Retrying.actionable. now rewrite Hskip.
        -- apply scanned_click_failed. unfold Retrying.actionable. now rewrite Hskip.
    + apply spec_bind_emit; simpl (sight _); cbn [app].
      eapply spec_weaken; [exact IH|]. intros o v Hv. now apply scanned_skip.
    + apply scanned_probe_failed.
Qed.

Lemma spec_poll_sights (rounds : nat) (pollDeadline : Z) :
  spec sight (Retrying.poll driver rounds pollDeadline) Polled.
Proof.
  induction rounds as [|rounds IH]; cbn [Retrying.poll];
    apply spec_bind_now; intros t; destruct (t <? pollDeadline);
    try (apply spec_ret; constructor); try (apply spec_spent; constructor).
  apply spec_bind_drive; [intros frames | intros e; constructor]; simpl (sight _); cbn [app].
  eapply spec_bind; [apply spec_scan_sights | | | |].
  - intros [c|] v1 Hv1.
    + apply spec_ret. rewrite app_nil_r. apply polled_last; [exact Hv1 | discriminate].
    + apply spec_bind_sleep; simpl (sight _); cbn [app].
      eapply spec_weaken; [exact IH|]. intros o v Hv. now apply polled_round.
  - intros e v Hv. apply polled_last; [exact Hv | discriminate].
  - intros c v Hv. apply polled_last; [exact Hv | discriminate].
  - intros v Hv. apply polled_last; [exact Hv | discriminate].
Qed.

Lemma spec_findAndClickWakeButton_sights :
  spec sight (Retrying.findAndClickWakeButton driver) Polled.
Proof.
  unfold Retrying.findAndClickWakeButton.
  apply spec_bind_now; intros t. apply spec_poll_sights.
Qed.

(** A scan that returns a context has skipped every context before it and
    probed none after it. *)
Lemma Scanned_hit (contexts : list (Ctx * string)) (c : Retrying.Clicked) (v : list Sight) :
  Scanned contexts (Val (Some c)) v ->
  exists pre post skipped el box inViewport,
    contexts = pre ++ (Retrying.ctx c, Retrying.label c) :: post /\
    v = skipped ++ [SProbe (Retrying.ctx c) (Retrying.label c) (Match el box inViewport);
                    SClick el; SClicked (Retrying.label c) (Retrying.ctx c)] /\
    Forall2 (fun cl s => exists p, s = SProbe (fst cl) (snd cl) p /\ Retrying.actionable p = false)
            pre skipped /\
    Retrying.actionable (Match el box inViewport) = true.
Proof.
  intros H. remember (Val (Some c)) as o eqn:Ho.
  induction H as [|ctx l rest p o v Hp Hs IH|ctx l rest el box inV Ha| |]; try discriminate.
  - destruct (IH Ho) as [pre [post [skipped [el [box [inV [Hc [Hv [Hf Ha]]]]]]]]].
    exists ((ctx, l) :: pre), post, (SProbe ctx l p :: skipped), el, box, inV.
    repeat split; auto.
    + now rewrite Hc.
    + now rewrite Hv.
    + constructor; [|exact Hf]. exists p. auto.
  - inversion Ho; subst c. cbn.
    exists [], rest, [], el, box, inV. repeat split; auto.
Qed.

(** A scan that finds nothing to click has issued no click. *)
Lemma Scanned_none_no_click (contexts : list (Ctx * string)) (v : list Sight) :
  Scanned contexts (Val None) v -> filter is_sclick v = [].
Proof.
  intros H. remember (Val None) as o eqn:Ho.
  induction H; try discriminate; cbn; auto.
Qed.

(** A scan that finds nothing to click has probed every context and found
    none actionable. *)
Lemma Scanned_none (contexts : list (Ctx * string)) (v : list Sight) :
  Scanned contexts (Val None) v ->
  Forall2 (fun cl s => exists p, s = SProbe (fst cl) (snd cl) p /\ Retrying.actionable p = false)
          contexts v.
Proof.
  intros H. remember (Val None) as o eqn:Ho.
  induction H as [|ctx l rest p o v Hp Hs IH| | |]; try discriminate.
  - constructor.
  - constructor; [exists p; auto | now apply IH].
Qed.

Lemma passed_no_click (contexts : list (Ctx * string)) (v : list Sight) :
  Forall2 (fun cl s => exists p, s = SProbe (fst cl) (snd cl) p /\ Retrying.actionable p = false)
          contexts v ->
  filter is_sclick v = [].
Proof. induction 1 as [|cl s cs v [p [-> _]] _ IH]; cbn; auto. Qed.

Lemma missed_rounds_no_click (missed : list (list Frame * list Sight)) :
  Forall (fun round =>
            Forall2 (fun cl s => exists p, s = SProbe (fst cl) (snd cl) p /\
                                           Retrying.actionable p = false)
                    ((CtxPage, "main page"%string)
                       :: map (fun frame => (CtxFrame frame, Retrying.frame_label frame))
                            (fst round))
                    (snd round)) missed ->
  filter is_sclick
    (flat_map (fun round => SFrames (Resolved (fst round)) :: snd round) missed) = [].
Proof.
  induction 1 as [|round rest Hr _ IH]; [reflexivity|].
  cbn. now rewrite filter_app, (passed_no_click _ _ Hr), IH.
Qed.

(** The rounds of a locator that returns: every round but the last went
    through every context, the page and then each frame the driver listed. *)
Lemma Polled_rounds (found : option Retrying.Clicked) (v : list Sight) :
  Polled (Val found) v ->
  exists missed final,
    v = flat_map (fun round => SFrames (Resolved (fst round)) :: snd round) missed ++ final /\
    Forall (fun round =>
              Forall2 (fun cl s => exists p, s = SProbe (fst cl) (snd cl) p /\
                                             Retrying.actionable p = false)
                      ((CtxPage, "main page"%string)
                         :: map (fun frame => (CtxFrame frame, Retrying.frame_label frame))
                              (fst round))
                      (snd round)) missed /\
    match found with
    | None => final = []
    | Some c =>
        exists frames w,
          final = SFrames (Resolved frames) :: w /\
          Scanned (Retrying.contexts_of frames) (Val (Some c)) w
    end.
Proof.
  intros H. remember (Val found) as o eqn:Ho.
  induction H as [| | |frames v o w Hs Hp IH|frames o v Hs Hn]; try discriminate.
  - inversion Ho; subst found. exists [], []. repeat split; constructor.
  - destruct (IH Ho) as [missed [final [Hw [Hm Hf]]]].
    exists ((frames, v) :: missed), final.
    split; [|split; [|exact Hf]].
    + rewrite Hw. cbn. now rewrite <- app_assoc.
    + constructor; [|exact Hm]. exact (Scanned_none _ _ Hs).
  - subst o. destruct found as [c|]; [|now contradiction Hn].
    exists [], (SFrames (Resolved frames) :: v). repeat split; [constructor|].
    exists frames, v. auto.
Qed.

End Locator.

(** ** Reading the shapes *)

Section Reading.

Variable env : Env.

Lemma Reported_cases (reason : string) (err : option Error) (v : list Mark) :
  Reported env reason err v ->
  (truthy (GITHUB_STEP_SUMMARY env) = false /\ v = fail_head reason err) \/
  (truthy (GITHUB_STEP_SUMMARY env) = true /\
   exists noise,
     v = fail_head reason err
           ++ MSummary (or_else (GITHUB_STEP_SUMMARY env) EmptyString)
                (buildFailureSummary (failure_lines env reason err)) :: noise /\
     (noise = [] \/ exists we, noise = [MErrorObj "Failed to write failure summary:" we])).
Proof.
  intros [tail [-> Ht]]. destruct (truthy (GITHUB_STEP_SUMMARY env)).
  - right. split; [reflexivity|]. destruct Ht as [noise [-> Hn]]. now exists noise.
  - left. subst tail. now rewrite app_nil_r.
Qed.

End Reading.

Section Shape.

Context {W : Type}.
Variable driver : forall c : Call, W -> Reply (Res c) * W.
Variable env : Env.

(** Every run of the retrying script from its initial state has one of the
    shapes of [Ran]. *)
Lemma run_shape (w : W) (t0 : Z) (out : Outcome unit) (st : State W) :
  Retrying.main driver env (init w t0) = (out, st) ->
  Ran driver env out (marks (trace st)).
Proof.
  intros E. destruct (main_runs driver env _ _ _ E) as [d [Ht Hr]].
  cbn in Ht. now rewrite Ht.
Qed.

End Shape.

(** Break every [Reported], [Closed] and [Looped] hypothesis into the explicit
    lists of marks it stands for. *)
Ltac open_reported :=
  repeat match goal with
    | H : Reported _ _ ?err _ |- _ =>
        apply Reported_cases in H;
        destruct H as [[? H] | [? [? [H [? | [? ?]]]]]]; subst; unfold fail_head in *
    end.

Ltac open_closed :=
  repeat match goal with
    | H : Closed _ |- _ => destruct H as [H | [? H]]; subst
    end.

Ltac open_looped :=
  repeat match goal with
    | H : Looped _ _ _ _ _ _ |- _ =>
        inversion H; subst; clear H;
        try (exfalso; unfold Retrying.WAKE_MAX_ATTEMPTS in *; lia)
    | H : _ \/ _ |- _ => destruct H; subst
    | H : exists _, _ |- _ => destruct H; subst
    end.

Ltac open_run H :=
  inversion H; subst; open_looped; open_reported; open_closed.

(** Pass from a run to its shape, with the marks as a variable. *)
Ltac shape_of E st :=
  apply run_shape in E;
  let ms := fresh "ms" in
  remember (marks (trace st)) as ms eqn:Hms; clear Hms.

Ltac absurd_in :=
  repeat match goal with
    | H : False |- _ => destruct H
    | H : In _ [] |- _ => destruct H
    | H : In _ (_ :: _) |- _ => destruct H as [H | H]; [try congruence|]
    | H : _ \/ _ |- _ => destruct H as [H | H]; [try congruence|]
    end.

(** ** Strings *)

Lemma length_append (a b : string) :
  String.length (a ++ b)%string = (String.length a + String.length b)%nat.
Proof. induction a as [|x a IH]; cbn; [reflexivity | now rewrite IH]. Qed.

Lemma includes_prefix (s sub : string) : String.prefix sub s = true -> includes s sub = true.
Proof. intros H. destruct s; cbn in *; rewrite H; reflexivity. Qed.

Lemma includes_skip (a s sub : string) :
  includes s sub = true -> includes (a ++ s)%string sub = true.
Proof.
  intros H. induction a as [|x a IH]; cbn; [exact H|].
  rewrite IH. apply orb_true_r.
Qed.

Lemma prefix_refl (s : string) : String.prefix s s = true.
Proof.
  induction s as [|x s IH]; cbn; [reflexivity|].
  destruct (ascii_dec x x); [exact IH | contradiction].
Qed.

Lemma includes_refl (s : string) : includes s s = true.
Proof. apply includes_prefix, prefix_refl. Qed.

Lemma prefix_extend (sub s t : string) :
  String.prefix sub s = true -> String.prefix sub (s ++ t)%string = true.
Proof.
  revert s. induction sub as [|x sub IH]; intros s H.
  - now destruct (s ++ t)%string.
  - destruct s as [|y s]; cbn in *; [discriminate|].
    destruct (ascii_dec x y); [now apply IH | discriminate].
Qed.

Lemma includes_extend (s t sub : string) :
  includes s sub = true -> includes (s ++ t)%string sub = true.
Proof.
  induction s as [|x s IH]; intros H.
  - cbn in H. rewrite orb_false_r in H. destruct sub; [|discriminate].
    cbn. now destruct t.
  - cbn [includes] in H. apply orb_true_iff in H. destruct H as [H | H].
    + apply includes_prefix. now apply (prefix_extend sub (String x s) t).
    + change (String x s ++ t)%string with (String x (s ++ t)%string).
      cbn [includes]. rewrite (IH H). apply orb_true_r.
Qed.

Lemma concat_includes (sep : string) (parts : list string) (part sub : string) :
  In part parts -> includes part sub = true ->
  includes (String.concat sep parts) sub = true.
Proof.
  intros Hin Hsub. induction parts as [|p ps IH]; [destruct Hin|].
  cbn [String.concat]. destruct Hin as [-> | Hin].
  - destruct ps; [exact Hsub | now apply includes_extend].
  - destruct ps as [|q ps]; [destruct Hin|].
    apply includes_skip, includes_skip. now apply IH.
Qed.

(** The failure summary mentions whatever one of its lines mentions. *)
Lemma summary_includes (lines : list string) (line sub : string) :
  In line lines -> includes line sub = true ->
  includes (buildFailureSummary lines) sub = true.
Proof.
  intros Hin Hsub. unfold buildFailureSummary, join.
  apply concat_includes with (part := ("- " ++ line)%string).
  - cbn [app]. right. right. apply in_or_app. left.
    now apply (in_map (fun l => ("- " ++ l)%string)).
  - now apply includes_skip.
Qed.

(** [succeeded_msg] on a label that is not empty. *)
Lemma succeeded_msg_label (t : Z) (l : string) :
  truthy_string l = true ->
  Retrying.succeeded_msg t (Some l)
  = ("Keepalive succeeded in " ++ string_of_Z t ++ "ms (wake-up button clicked on "
       ++ l ++ ")")%string.
Proof. intros H. unfold Retrying.succeeded_msg. now rewrite H. Qed.

Arguments Retrying.already_awake_msg : simpl never.
Arguments Retrying.succeeded_msg : simpl never.
Arguments buildFailureSummary : simpl never.
Arguments failure_lines : simpl never.

Section Claims.

Context {W : Type}.
Variable driver : forall c : Call, W -> Reply (Res c) * W.
Variable env : Env.

(** C4. A run whose first attempt ends with no wake control found by the
    polling deadline ends in overall success, its closing message is the
    already-awake one, and it has issued no click. *)
Theorem already_awake_without_click (w : W) (t0 : Z) (out : Outcome unit) (st : State W) :
  Retrying.main driver env (init w t0) = (out, st) ->
  In (1, NoControlFound) (outcomes (marks (trace st))) ->
  out = Val tt /\
  (exists t, success_messages (marks (trace st)) = [Retrying.already_awake_msg t]) /\
  click_count (marks (trace st)) = 0%nat.
Proof.
  intros E Hin. shape_of E st.
  open_run E; cbn in Hin; absurd_in; cbn.
  all: split; [reflexivity|]; split; [eexists; reflexivity | reflexivity].
Qed.



(** C7. A run whose navigation yields no response, or a response with
    status 400 or more, exits with code 1 under the generic failure reason
    without issuing a click; the error reported is the navigation error, and
    when a summary sink is configured the summary written holds the target
    URL, the reason and the error message. *)
Theorem failed_navigation_reported (w : W) (t0 : Z) (out : Outcome unit) (st : State W)
        (s : Settled (option Response)) :
  Retrying.main driver env (init w t0) = (out, st) ->
  In s (navigations (marks (trace st))) ->
  (s = Resolved None \/ exists r, s = Resolved (Some r) /\ 400 <= status r) ->
  out = Exit 1 /\
  click_count (marks (trace st)) = 0%nat /\
  reasons (marks (trace st)) = [Retrying.GENERIC_FAILURE] /\
  exists e url,
    NavFailed s e /\
    In (MErrorObj EmptyString e) (marks (trace st)) /\
    STREAMLIT_URL env = Some url /\
    (truthy (GITHUB_STEP_SUMMARY env) = true ->
     exists path text,
       In (path, text) (summaries (marks (trace st))) /\
       text = buildFailureSummary (failure_lines env Retrying.GENERIC_FAILURE (Some e)) /\
       includes text url = true /\
       includes text Retrying.GENERIC_FAILURE = true /\
       includes text (message e) = true).
Proof.
  intros E. shape_of E st.
  assert (Hsum : forall e url,
             STREAMLIT_URL env = Some url -> truthy_string url = true ->
             truthy_string (message e) = true ->
             let text := buildFailureSummary
                           (failure_lines env Retrying.GENERIC_FAILURE (Some e)) in
             includes text url = true /\
             includes text Retrying.GENERIC_FAILURE = true /\
             includes text (message e) = true).
  { intros e url Hu Ht Hm text. subst text. unfold failure_lines.
    rewrite Hm. unfold or_else. rewrite Hu, Ht. cbn [app].
    repeat split.
    - eapply summary_includes; [left; reflexivity|]. apply includes_skip, includes_refl.
    - eapply summary_includes; [right; left; reflexivity|].
      apply includes_skip, includes_refl.
    - eapply summary_includes; [right; right; left; reflexivity|].
      apply includes_skip, includes_refl. }
  assert (Hurl : truthy (STREAMLIT_URL env) = true ->
                 exists url, STREAMLIT_URL env = Some url /\ truthy_string url = true).
  { unfold truthy. destruct (STREAMLIT_URL env) as [url|]; [eauto | discriminate]. }
  open_run E; intros Hin Hs; cbn in Hin; try contradiction.
  all: destruct Hin as [<- | []].
  all: try (destruct Hs as [Hs | [r' [Hs Hr']]]; inversion Hs; subst; exfalso; lia).
  all: match goal with
       | H : NavFailed _ _ |- _ =>
           pose proof H as Hnav;
           destruct H as [H | [[H ->] | [r' [H [Hr' ->]]]]]; subst;
           [destruct Hs as [Hs | [? [Hs _]]]; discriminate Hs | | ]
       end.
  all: match goal with
       | H : truthy (STREAMLIT_URL env) = true |- _ =>
           destruct (Hurl H) as [url [Hu Ht]]
       end.
  all: split; [reflexivity|]; split; [reflexivity|]; split; [reflexivity|].
  all: eexists; exists url; split; [exact Hnav|]; split; [cbn; tauto|]; split; [exact Hu|].
  all: intros Hsink; try congruence.
  all: do 2 eexists; split; [cbn; left; reflexivity|]; split; [reflexivity|];
    apply Hsum; auto.
Qed.

(** C10, as amended. In a run that ends in overall success and in which no
    attempt ended without a control found, the closing message names the
    label of the last click of the run and nothing else: with [l] that label
    it reads [Keepalive succeeded in <t>ms (wake-up button clicked on <l>)]. *)
Theorem success_message_names_last_click (w : W) (t0 : Z) (out : Outcome unit) (st : State W)
        (ls : list string) (l : string) :
  Retrying.main driver env (init w t0) = (out, st) ->
  out = Val tt ->
  clicked_labels (marks (trace st)) = ls ++ [l] ->
  (forall k, ~ In (k, NoControlFound) (outcomes (marks (trace st)))) ->
  exists t,
    success_messages (marks (trace st)) =
    [("Keepalive succeeded in " ++ string_of_Z t ++ "ms (wake-up button clicked on "
        ++ l ++ ")")%string].
Proof.
  intros E. shape_of E st.
  open_run E; intros Hout Hl Hn; try discriminate Hout.
  all: try (exfalso; eapply Hn; cbn; eauto; fail).
  all: apply (f_equal (fun x => last x EmptyString)) in Hl;
    rewrite last_last in Hl; cbn in Hl; subst l.
  all: cbn; eexists; rewrite succeeded_msg_label by assumption; reflexivity.
Qed.

(** X13. A run closes the browser exactly when it ends in overall success: every
    failing run exits the process from within [fail], and the [finally]
    clause is not reached. *)
Lemma browser_closed_iff_success (w : W) (t0 : Z) (out : Outcome unit) (st : State W) :
  Retrying.main driver env (init w t0) = (out, st) ->
  (out = Val tt /\ close_count (marks (trace st)) = 1%nat) \/
  (out = Exit 1 /\ close_count (marks (trace st)) = 0%nat).
Proof.
  intros E. shape_of E st.
  open_run E; cbn; auto.
Qed.

(** X14. A run reports the readiness failure only when one of the two
    readiness waits has thrown before returning its promise: the run then
    ends with exit code 1, and the error it logs is the one thrown. *)
Lemma readiness_failure_needs_a_throwing_wait
      (w : W) (t0 : Z) (out : Outcome unit) (st : State W) :
  Retrying.main driver env (init w t0) = (out, st) ->
  In Retrying.READY_FAILURE (reasons (marks (trace st))) ->
  out = Exit 1 /\
  exists c w' e,
    is_wait c = true /\ fst (driver c w') = Throws e /\
    In (MErrorObj EmptyString e) (marks (trace st)).
Proof.
  intros E. shape_of E st.
  open_run E; cbn; intros Hin; absurd_in;
    repeat match goal with
      | H : _ = Retrying.READY_FAILURE |- _ => discriminate H
      end.
  all: split; [reflexivity|].
  all: match goal with
       | H : WaitThrew _ ?e |- _ =>
           destruct H as [c [w' [Hc Hd]]]; exists c, w', e;
           split; [exact Hc|]; split; [exact Hd|]
       end.
  all: cbn; tauto.
Qed.

(** X23. When the two readiness waits always return a promise, however it
    settles, no run reports the readiness failure: a wait that is rejected,
    as it is at its timeout, is swallowed by its [.catch(() => null)]. *)
Lemma rejected_waits_are_swallowed
      (w : W) (t0 : Z) (out : Outcome unit) (st : State W) :
  (forall c w', is_wait c = true -> exists p, fst (driver c w') = Returns p) ->
  Retrying.main driver env (init w t0) = (out, st) ->
  ~ In Retrying.READY_FAILURE (reasons (marks (trace st))).
Proof.
  intros Hret E. shape_of E st.
  open_run E; cbn; intros Hin; absurd_in;
    repeat match goal with
      | H : _ = Retrying.READY_FAILURE |- _ => discriminate H
      end.
  all: match goal with
       | H : WaitThrew _ ?e |- _ =>
           destruct H as [c [w' [Hc Hd]]];
           destruct (Hret c w' Hc) as [p Hp]; congruence
       end.
Qed.


End Claims.

(** ** The locator returns the first actionable context *)

Section LocatorClaims.

Context {W : Type}.
Variable driver : forall c : Call, W -> Reply (Res c) * W.

(** C3. The locator goes through the contexts in the order top-level page
    and then the frames as the driver lists them, round after round.  A round
    that does not click has probed every one of these contexts, the page and
    each frame, and has found no actionable match in any; so a round in which
    some context holds an actionable match ends at the first such context.
    When the locator returns a context, that context is the first one of its
    round whose match is actionable: every context before it was probed in
    that round and was not actionable, no context after it was probed, and
    the one click of the whole search went to its element.  When the locator
    returns nothing, every round was of the first kind. *)
Theorem locator_returns_first_actionable
        (st st' : State W) (found : option Retrying.Clicked) :
  Retrying.findAndClickWakeButton driver st = (Val found, st') ->
  let in_order := fun frames : list Frame =>
    (CtxPage, "main page"%string)
      :: map (fun frame => (CtxFrame frame, Retrying.frame_label frame)) frames in
  let passed := fun (cl : Ctx * string) (s : Sight) =>
    exists p, s = SProbe (fst cl) (snd cl) p /\ Retrying.actionable p = false in
  exists d (missed : list (list Frame * list Sight)) final,
    trace st' = trace st ++ d /\
    sights d = flat_map (fun round => SFrames (Resolved (fst round)) :: snd round) missed
                 ++ final /\
    Forall (fun round => Forall2 passed (in_order (fst round)) (snd round)) missed /\
    match found with
    | None => final = []
    | Some c =>
        exists frames pre post skipped el box inViewport,
          final = SFrames (Resolved frames) :: skipped
                    ++ [SProbe (Retrying.ctx c) (Retrying.label c) (Match el box inViewport);
                        SClick el; SClicked (Retrying.label c) (Retrying.ctx c)] /\
          in_order frames = pre ++ (Retrying.ctx c, Retrying.label c) :: post /\
          Forall2 passed pre skipped /\
          Retrying.actionable (Match el box inViewport) = true /\
          filter is_sclick (sights d) = [SClick el]
    end.
Proof.
  intros E in_order passed.
  destruct (spec_findAndClickWakeButton_sights driver _ _ _ E) as [_ [_ [d [Ht Hp]]]].
  destruct (Polled_rounds _ _ Hp) as [missed [final [Hv [Hm Hf]]]].
  exists d, missed, final.
  change (sights d) with (obs sight d).
  split; [exact Ht|]. split; [exact Hv|]. split; [exact Hm|].
  destruct found as [c|]; [|exact Hf].
  destruct Hf as [frames [w [-> Hs]]].
  destruct (Scanned_hit _ _ _ Hs)
    as [pre [post [skipped [el [box [inV [Hc [Hw [Hk Ha]]]]]]]]].
  exists frames, pre, post, skipped, el, box, inV.
  split; [now rewrite Hw|]. split; [exact Hc|]. split; [exact Hk|]. split; [exact Ha|].
  rewrite Hv, Hw, filter_app, (missed_rounds_no_click _ Hm). cbn.
  rewrite filter_app, (passed_no_click _ _ Hk). reflexivity.
Qed.

End LocatorClaims.

(** ** The loop models never run out of iterations *)

Lemma main_not_spent {W : Type} (driver : forall c : Call, W -> Reply (Res c) * W)
      (env : Env) (w : W) (t0 : Z) :
  fst (Retrying.main driver env (init w t0)) <> Spent.
Proof.
  destruct (Retrying.main driver env (init w t0)) as [out st] eqn:E.
  apply run_shape in E. cbn. intros ->. inversion E.
Qed.

(** The readiness step completes however the two waits settle, when they
    return their promise. *)
Lemma readiness_step_completes_when_waits_return {W : Type}
      (driver : forall c : Call, W -> Reply (Res c) * W) (env : Env)
      (lastClickedContext : Ctx) (st : State W) :
  (forall c w, is_wait c = true -> exists p, fst (driver c w) = Returns p) ->
  exists st', Retrying.await_ready driver env lastClickedContext st = (Val tt, st').
Proof.
  intros Hret.
  destruct (Retrying.await_ready driver env lastClickedContext st) as [o st'] eqn:E.
  destruct (spec_await_ready driver env lastClickedContext _ _ _ E)
    as [_ [_ [d [_ [[-> _] | [e [_ [[c [w [Hc Hd]]] _]]]]]]]].
  - now exists st'.
  - destruct (Hret c w Hc) as [p Hp]. congruence.
Qed.

(** Every click of a scan goes to an element the scan has probed and found
    actionable. *)
Lemma scan_clicks_only_actionable (contexts : list (Ctx * string))
      (o : Outcome (option Retrying.Clicked)) (v : list Sight) :
  Scanned contexts o v ->
  forall el, In (SClick el) v ->
    exists ctx l box inViewport,
      In (SProbe ctx l (Match el box inViewport)) v /\
      Retrying.actionable (Match el box inViewport) = true.
Proof.
  induction 1 as [|ctx l rest p o v Hp Hs IH|ctx l rest el' box inV Ha
                  |ctx l rest el' box inV e Ha|]; intros el Hin; cbn in Hin.
  - destruct Hin.
  - destruct Hin as [Hin | Hin]; [discriminate|].
    destruct (IH el Hin) as [c' [l' [b' [i' [Hi Ha]]]]].
    exists c', l', b', i'. split; [now right | exact Ha].
  - destruct Hin as [Hin | [Hin | [Hin | []]]]; try discriminate.
    inversion Hin; subst. exists ctx, l, box, inV. split; [now left | exact Ha].
  - destruct Hin as [Hin | [Hin | []]]; try discriminate.
    inversion Hin; subst. exists ctx, l, box, inV. split; [now left | exact Ha].
  - destruct Hin.
Qed.

Lemma poll_clicks_only_actionable (o : Outcome (option Retrying.Clicked)) (v : list Sight) :
  Polled o v ->
  forall el, In (SClick el) v ->
    exists ctx l box inViewport,
      In (SProbe ctx l (Match el box inViewport)) v /\
      Retrying.actionable (Match el box inViewport) = true.
Proof.
  induction 1 as [| |e|frames v o w Hs Hp IH|frames o v Hs Hn]; intros el Hin; cbn in Hin.
  - destruct Hin.
  - destruct Hin.
  - destruct Hin as [Hin | []]. discriminate Hin.
  - destruct Hin as [Hin | Hin]; [discriminate Hin|].
    apply in_app_or in Hin. destruct Hin as [Hin | Hin].
    + destruct (scan_clicks_only_actionable _ _ _ Hs el Hin) as [c [l [b [i [Hi Ha]]]]].
      exists c, l, b, i. split; [|exact Ha]. right. apply in_or_app. now left.
    + destruct (IH el Hin) as [c [l [b [i [Hi Ha]]]]].
      exists c, l, b, i. split; [|exact Ha]. right. apply in_or_app. now right.
  - destruct Hin as [Hin | Hin]; [discriminate Hin|].
    destruct (scan_clicks_only_actionable _ _ _ Hs el Hin) as [c [l [b [i [Hi Ha]]]]].
    exists c, l, b, i. split; [|exact Ha]. now right.
Qed.

(** X12. Every click of the locator goes to an element that the locator has
    probed and found actionable, whatever the driver answers. *)
Lemma locator_clicks_only_actionable {W : Type}
      (driver : forall c : Call, W -> Reply (Res c) * W)
      (st : State W) (o : Outcome (option Retrying.Clicked)) (st' : State W) :
  Retrying.findAndClickWakeButton driver st = (o, st') ->
  exists d, trace st' = trace st ++ d /\
    forall el, In (SClick el) (sights d) ->
      exists ctx l box inViewport,
        In (SProbe ctx l (Match el box inViewport)) (sights d) /\
        Retrying.actionable (Match el box inViewport) = true.
Proof.
  intros E.
  destruct (spec_findAndClickWakeButton_sights driver _ _ _ E) as [_ [_ [d [Ht Hp]]]].
  exists d. split; [exact Ht|].
  exact (poll_clicks_only_actionable _ _ Hp).
Qed.

(** ** The scripts on concrete drivers *)

(** C1. With the button persisting and both readiness waits rejected at their
    timeout after every click, the run does not stop at the first attempt and
    does not report the readiness failure: it clicks three times and gives up
    with the still-present reason. *)
Theorem readiness_timeout_not_raised :
  let r := Retrying.main Worlds.persistent Worlds.env (init tt 0) in
  readiness_waits (trace (snd r))
    = repeat (Rejected (Worlds.timeout_error Retrying.WAKE_READY_TIMEOUT_MS)) 6 /\
  fst r = Exit 1 /\
  reasons (marks (trace (snd r))) = [Retrying.STILL_PRESENT_FAILURE] /\
  ~ In Retrying.READY_FAILURE (reasons (marks (trace (snd r)))) /\
  click_count (marks (trace (snd r))) = 3%nat /\
  outcomes (marks (trace (snd r)))
    = [(1, ClickedButStillPresent "main page"%string);
       (2, ClickedButStillPresent "main page"%string);
       (3, ClickedButStillPresent "main page"%string)].
Proof.
  intro r. repeat split; try (vm_compute; reflexivity).
  intros H. vm_compute in H. destruct H as [H | []]. discriminate H.
Qed.

(** C2. [keepalive.js] clicks a button that has no bounding box and does not
    intersect the viewport; the retrying script, on the same page, issues no
    click. *)
Theorem keepalive_clicks_unactionable :
  let r := Keepalive.main Worlds.inert Worlds.env (init tt 0) in
  (forall w, ending (fst (Worlds.inert (BoundingBox 7%nat) w)) = Resolved None) /\
  (forall w, ending (fst (Worlds.inert (IsIntersectingViewport 7%nat) w)) = Resolved false) /\
  fst r = Val tt /\
  sights (trace (snd r)) = [SClick 7%nat] /\
  click_count (marks (trace (snd r))) = 1%nat /\
  click_count (marks (trace (snd (Retrying.main Worlds.inert Worlds.env (init tt 0))))) = 0%nat.
Proof.
  intro r. repeat split; try (intros []); vm_compute; reflexivity.
Qed.

(** C8. When the navigation answers with status 500 the browser has been
    launched, the run exits with code 1, and no call to close the browser is
    ever issued; so it is in [keepalive.js]. *)
Theorem browser_left_open_on_failure :
  let r := Retrying.main Worlds.failing500 Worlds.env (init tt 0) in
  let k := Keepalive.main Worlds.failing500 Worlds.env (init tt 0) in
  fst r = Exit 1 /\
  launch_count (marks (trace (snd r))) = 1%nat /\
  close_count (marks (trace (snd r))) = 0%nat /\
  fst k = Exit 1 /\
  launch_count (marks (trace (snd k))) = 1%nat /\
  close_count (marks (trace (snd k))) = 0%nat.
Proof.
  intros r k. repeat split; vm_compute; reflexivity.
Qed.

(** C10, as stated, fails: a run clicks on its first attempt, finds the
    control still present, finds no control on its second attempt, and ends
    in overall success with the already-awake message, which names no label. *)
Lemma success_after_click_names_no_label :
  let r := Retrying.main Worlds.fading Worlds.env (init 0%nat 0) in
  fst r = Val tt /\
  clicked_labels (marks (trace (snd r))) = ["main page"%string] /\
  outcomes (marks (trace (snd r)))
    = [(1, ClickedButStillPresent "main page"%string); (2, NoControlFound)] /\
  ~ (exists t,
        success_messages (marks (trace (snd r)))
        = [Retrying.succeeded_msg t (Some "main page"%string)]).
Proof.
  intro r. repeat split; try (vm_compute; reflexivity).
  intros [t H].
  assert (Hs : success_messages (marks (trace (snd r)))
               = [Retrying.already_awake_msg 69560]) by (vm_compute; reflexivity).
  rewrite Hs in H. clear Hs.
  rewrite succeeded_msg_label in H by reflexivity.
  apply (f_equal (fun l => String.length (hd EmptyString l))) in H.
  cbn [hd] in H. rewrite !length_append in H.
  remember (String.length (string_of_Z t)) as n eqn:Hn. clear Hn.
  change (String.length (Retrying.already_awake_msg 69560)) with 46%nat in H.
  cbn [String.length] in H. lia.
Qed.

(** ** Witnesses *)

Lemma already_awake_without_click_witness :
  let r := Retrying.main Worlds.awake Worlds.env (init tt 0) in
  fst r = Val tt /\
  (exists t, success_messages (marks (trace (snd r))) = [Retrying.already_awake_msg t]) /\
  click_count (marks (trace (snd r))) = 0%nat.
Proof.
  intro r.
  apply (already_awake_without_click Worlds.awake Worlds.env tt 0 (fst r) (snd r)).
  - apply surjective_pairing.
  - vm_compute. left. reflexivity.
Defined.



Lemma failed_navigation_reported_witness :
  let r := Retrying.main Worlds.failing500 Worlds.env (init tt 0) in
  fst r = Exit 1 /\ click_count (marks (trace (snd r))) = 0%nat.
Proof.
  intro r.
  destruct (failed_navigation_reported Worlds.failing500 Worlds.env tt 0 (fst r) (snd r)
              (Resolved (Some (mkResponse 500 "Internal Server Error"))))
    as [Ho [Hc _]].
  - apply surjective_pairing.
  - vm_compute. left. reflexivity.
  - right. eexists. split; [reflexivity | cbn; lia].
  - exact (conj Ho Hc).
Defined.

Lemma success_message_names_last_click_witness :
  let r := Retrying.main Worlds.wandering Worlds.env (init 0%nat 0) in
  clicked_labels (marks (trace (snd r)))
    = ["main page"%string; "frame https://a.example/"%string] /\
  exists t,
    success_messages (marks (trace (snd r))) =
    [("Keepalive succeeded in " ++ string_of_Z t
        ++ "ms (wake-up button clicked on frame https://a.example/)")%string].
Proof.
  intro r. split; [vm_compute; reflexivity|].
  apply (success_message_names_last_click Worlds.wandering Worlds.env 0%nat 0
           (fst r) (snd r) ["main page"%string] "frame https://a.example/"%string).
  - apply surjective_pairing.
  - vm_compute. reflexivity.
  - vm_compute. reflexivity.
  - intros k H. vm_compute in H.
    destruct H as [H | [H | []]]; discriminate H.
Defined.


Lemma locator_returns_first_actionable_witness :
  let c := Retrying.mkClicked "frame [no URL]" (CtxFrame Worlds.frame_b) in
  let r := Retrying.findAndClickWakeButton Cases.late (init 0%nat 0) in
  fst r = Val (Some c) /\
  sights (trace (snd r))
  = [SFrames (Resolved [Worlds.frame_a; Worlds.frame_b]);
     SProbe CtxPage "main page" NoMatch;
     SProbe (CtxFrame Worlds.frame_a) "frame https://a.example/" NoMatch;
     SProbe (CtxFrame Worlds.frame_b) "frame [no URL]" NoMatch;
     SFrames (Resolved [Worlds.frame_a; Worlds.frame_b]);
     SProbe CtxPage "main page" (Match 0%nat None false);
     SProbe (CtxFrame Worlds.frame_a) "frame https://a.example/" NoMatch;
     SProbe (CtxFrame Worlds.frame_b) "frame [no URL]" (Match 2%nat (Some Worlds.a_box) true);
     SClick 2%nat; SClicked "frame [no URL]" (CtxFrame Worlds.frame_b)] /\
  exists d el box inViewport,
    trace (snd r) = d /\
    Retrying.actionable (Match el box inViewport) = true /\
    filter is_sclick (sights d) = [SClick el].
Proof.
  intros c r. split; [vm_compute; reflexivity|]. split; [vm_compute; reflexivity|].
  destruct (locator_returns_first_actionable Cases.late (init 0%nat 0) (snd r) (Some c))
    as (d & missed & final & Ht & _ & _ & frames & pre & post & skipped & el & box & inV
        & _ & _ & _ & Ha & Hk).
  - vm_compute. reflexivity.
  - exists d, el, box, inV. repeat split; auto.
Defined.

(** ** [.github/scripts/keepalive.js]: the shape of every run *)

Section KeepaliveRuns.

Context {W : Type}.
Variable driver : forall c : Call, W -> Reply (Res c) * W.
Variable env : Env.

Lemma spec_checkForWakeButton (context : Ctx) :
  spec mark (Keepalive.checkForWakeButton driver context) Checked.
Proof.
  unfold Keepalive.checkForWakeButton.
  apply spec_bind_drive; [intros [button|] | intros e; now left]; simpl (mark _); cbn [app].
  - apply spec_bind_emit; simpl (mark _); cbn [app].
    apply spec_bind_drive; [intros [] | intros e; now right]; simpl (mark _); cbn [app].
    apply spec_ret. reflexivity.
  - apply spec_ret. reflexivity.
Qed.

Lemma spec_check_frames (frames : list Frame) :
  spec mark (Keepalive.check_frames driver frames) Checked.
Proof.
  induction frames as [|frame rest IH]; cbn [Keepalive.check_frames].
  - apply spec_ret. reflexivity.
  - eapply spec_bind; [apply spec_checkForWakeButton | | | |].
    + intros [|] v1 Hv1; cbn in Hv1; subst v1.
      * apply spec_ret. reflexivity.
      * exact IH.
    + intros e v Hv. exact Hv.
    + intros c v [].
    + intros v [].
Qed.

Lemma spec_keepalive_session (startedAt : Z) :
  spec mark (Keepalive.session driver env startedAt) KSessioned.
Proof.
  unfold Keepalive.session.
  apply spec_bind_drive; [intros ? | intros e; left; eauto]; simpl (mark _); cbn [app].
  apply spec_bind_drive; [intros [r|] | intros e]; simpl (mark _); cbn [app].
  - apply spec_bind_emit; simpl (mark _); cbn [app].
    destruct (status r >=? 400) eqn:Hs.
    + apply spec_bind_throw. right; left.
      exists (Resolved (Some r)), (new_Error ("Unexpected response status: "
                                               ++ string_of_Z (status r))%string).
      repeat split. right; right. exists r. repeat split. apply Z.geb_le in Hs. lia.
    + apply spec_bind_ret.
      apply spec_bind_sleep; simpl (mark _); cbn [app].
      assert (Hr : status r < 400).
      { rewrite Z.geb_leb in Hs. apply Z.leb_gt in Hs. exact Hs. }
      assert (Hend : forall (clicked : bool),
                 spec mark
                   (t <- Date_now;;
                    console_log (W:=W) (Keepalive.succeeded_msg (t - startedAt) clicked))
                   (fun o v => exists t,
                        o = Val tt /\ v = [MSuccess (Keepalive.succeeded_msg t clicked)])).
      { intros clicked. apply spec_bind_now; intros t. apply spec_emit.
        exists (t - startedAt). split; [reflexivity|]. now destruct clicked. }
      eapply spec_bind; [apply spec_checkForWakeButton | | | |].
      * intros [|] v1 Hv1; cbn in Hv1; subst v1; cbn [negb app].
        -- apply spec_bind_ret.
           eapply spec_weaken; [apply (Hend true)|]. intros o v [t [-> ->]].
           right; right. exists r. split; [exact Hr|]. left. exists true, t. auto.
        -- eapply spec_bind with (P := Checked).
           ++ apply spec_bind_drive; [intros frames | intros e; now left];
                simpl (mark _); cbn [app].
              apply spec_check_frames.
           ++ intros clicked v1 Hv1.
              eapply spec_weaken; [apply (Hend clicked)|]. intros o v [t [-> ->]].
              right; right. exists r. split; [exact Hr|]. left. exists clicked, t.
              split; [reflexivity|].
              destruct clicked; cbn in Hv1; subst v1; reflexivity.
           ++ intros e v Hv. right; right. exists r. split; [exact Hr|]. right. exists e.
              split; [reflexivity|]. destruct Hv as [-> | ->]; auto.
           ++ intros c v [].
           ++ intros v [].
      * intros e v Hv. right; right. exists r. split; [exact Hr|]. right. exists e.
        split; [reflexivity|]. destruct Hv as [-> | ->]; auto.
      * intros c v [].
      * intros v [].
  - apply spec_throw. right; left.
    exists (Resolved None), (new_Error "No response received from the Streamlit app").
    repeat split. right; left. auto.
  - right; left. exists (Rejected e), e. repeat split. now left.
Qed.

Lemma keepalive_body_runs (startedAt : Z) (st : State W) (o : Outcome unit) (st' : State W) :
  Keepalive.body driver env startedAt st = (o, st') ->
  exists d, trace st' = trace st ++ d /\
    ((exists e, o = Throw e /\ marks d = [MLaunch]) \/
     (exists v, marks d = MLaunch :: v /\ KSessioned o v /\ browser st' = Some tt)).
Proof.
  intros E. unfold Keepalive.body in E.
  destruct (drive driver Launch st) as [o1 st1] eqn:E1.
  assert (Hl : spec mark (drive driver Launch)
                 (fun o v => ((exists a, o = Val a) \/ exists e, o = Throw e) /\ v = [MLaunch])).
  { apply (spec_drive mark driver Launch). intros [a|e]; cbn; eauto. }
  destruct (Hl _ _ _ E1) as [_ [_ [d1 [Ht1 [Ho1 Hv1]]]]].
  destruct o1 as [b|e|c|]; try (destruct Ho1 as [[? H]|[? H]]; discriminate).
  - rewrite (bind_Val _ _ _ _ _ E1) in E.
    erewrite bind_Val in E by reflexivity.
    destruct (spec_keepalive_session startedAt _ _ _ E) as [_ [Hb [d2 [Ht2 Hs]]]].
    exists (d1 ++ d2). split.
    + rewrite Ht2. cbn [trace]. now rewrite Ht1, app_assoc.
    + right. exists (marks d2). rewrite marks_app.
      change (marks d1) with (obs mark d1). rewrite Hv1.
      repeat split; auto. apply Hb. cbn. now destruct b.
  - rewrite (bind_Throw _ _ _ _ _ E1) in E. inversion E; subst.
    exists d1. split; [exact Ht1|]. left. exists e. auto.
Qed.

(** Every run of [keepalive.js] has one of the shapes of [KRan]. *)
Lemma keepalive_main_runs (st : State W) (out : Outcome unit) (st' : State W) :
  Keepalive.main driver env st = (out, st') ->
  exists d, trace st' = trace st ++ d /\ KRan env out (marks d).
Proof.
  intros E. unfold Keepalive.main in E.
  destruct (truthy (STREAMLIT_URL env)) eqn:Hu; cbn [negb] in E.
  - rewrite (bind_Val (ret tt) _ st tt st eq_refl) in E.
    erewrite bind_Val in E by reflexivity.
    erewrite bind_Val in E by reflexivity.
    erewrite bind_Val in E by reflexivity.
    cbn [clock] in E.
    unfold try_finally, try_catch in E.
    match type of E with
    | context [Keepalive.body driver env ?t ?s] =>
        destruct (Keepalive.body driver env t s) as [ob sb] eqn:Eb
    end.
    destruct (keepalive_body_runs _ _ _ _ Eb) as [d1 [Ht1 Hd1]]. cbn [trace] in Ht1.
    assert (Hfail : forall e v,
               ob = Throw e -> marks d1 = MLaunch :: v ->
               (v = [] \/ (exists s, NavFailed s e /\ v = [MGoto s]) \/
                (exists r (clicked : bool),
                    status r < 400 /\
                    v = MGoto (Resolved (Some r)) :: (if clicked then [MClick] else []))) ->
               exists d, trace st' = trace st ++ d /\ KRan env out (marks d)).
    { intros e v -> Hm Hv.
      destruct (fail_runs driver env (A:=unit) Keepalive.GENERIC_FAILURE (Some e) sb)
        as [sf [df [Ef [Htf Hr]]]].
      rewrite Ef in E. inversion E; subst out st'.
      eexists. split.
      { rewrite Htf, Ht1, <- !app_assoc. reflexivity. }
      rewrite !marks_app. simpl (marks [_]). rewrite Hm. cbn [app].
      destruct Hv as [-> | [[s [Hn ->]] | [r [clicked [Hr4 ->]]]]].
      - now apply kran_no_page with (e := e).
      - now apply kran_navigation with (e := e).
      - cbn [app]. now apply (kran_crashed env r clicked e (marks df)). }
    destruct Hd1 as [[e [-> Hm]] | [v [Hm [Hs Hb]]]].
    + apply (Hfail e []); auto.
    + destruct Hs as [[e [-> ->]] | [[s [e [Hn [-> ->]]]]
                     | [r [Hr [[clicked [t [-> ->]]] | [e [-> Hv]]]]]]].
      * apply (Hfail e []); auto.
      * apply (Hfail e [MGoto s]); auto. right; left. eauto.
      * destruct (close_browser_runs driver sb Hb) as [sc [dc [Ec [Htc Hc]]]].
        rewrite (bind_Val _ _ _ _ _ Ec) in E. inversion E; subst out st'.
        eexists. split.
        { rewrite Htc, Ht1, <- !app_assoc. reflexivity. }
        rewrite !marks_app. simpl (marks [_]). rewrite Hm. cbn [app].
        rewrite <- app_assoc. cbn [app]. now apply kran_succeeded.
      * destruct Hv as [-> | ->].
        -- apply (Hfail e [MGoto (Resolved (Some r))]); auto.
           right; right. exists r, false. auto.
        -- apply (Hfail e [MGoto (Resolved (Some r)); MClick]); auto.
           right; right. exists r, true. auto.
  - destruct (fail_runs driver env (A:=unit) "STREAMLIT_URL env var is required" None st)
      as [sf [df [Ef [Htf Hr]]]].
    rewrite (bind_Exit _ _ _ _ _ Ef) in E. inversion E; subst out st'.
    exists df. split; [exact Htf|]. now apply kran_unconfigured.
Qed.

Lemma keepalive_run_shape (w : W) (t0 : Z) (out : Outcome unit) (st : State W) :
  Keepalive.main driver env (init w t0) = (out, st) -> KRan env out (marks (trace st)).
Proof.
  intros E. destruct (keepalive_main_runs _ _ _ E) as [d [Ht Hr]].
  cbn in Ht. now rewrite Ht.
Qed.

(** *** The search, call by call *)

Lemma spec_checkForWakeButton_asks (context : Ctx) :
  spec ask (Keepalive.checkForWakeButton driver context) (Asked context).
Proof.
  unfold Keepalive.checkForWakeButton.
  apply spec_bind_drive; [intros [button|] | intros e; now left]; simpl (ask _); cbn [app].
  - apply spec_bind_emit; simpl (ask _); cbn [app].
    apply spec_bind_drive; [intros [] | intros e; cbn; right; eexists; reflexivity];
      simpl (ask _); cbn [app].
    apply spec_ret. cbn. eauto.
  - apply spec_ret. reflexivity.
Qed.

Lemma spec_check_frames_asks (frames : list Frame) :
  spec ask (Keepalive.check_frames driver frames) (Swept frames).
Proof.
  induction frames as [|frame rest IH]; cbn [Keepalive.check_frames].
  - apply spec_ret. constructor.
  - eapply spec_bind; [apply spec_checkForWakeButton_asks | | | |].
    + intros [|] v1 Hv1.
      * apply spec_ret. rewrite app_nil_r. apply swept_stop; [discriminate | exact Hv1].
      * cbn in Hv1. subst v1. cbn [app].
        eapply spec_weaken; [exact IH|]. intros o v Hv. now apply swept_miss.
    + intros e v Hv. apply swept_stop; [discriminate | exact Hv].
    + intros c v [].
    + intros v [].
Qed.

Lemma spec_keepalive_session_asks (startedAt : Z) :
  spec ask (Keepalive.session driver env startedAt) (fun _ v => KSearched v).
Proof.
  unfold Keepalive.session.
  apply spec_bind_drive; [intros ? | intros e; now left]; simpl (ask _); cbn [app].
  apply spec_bind_drive; [intros [r|] | intros e; now left]; simpl (ask _); cbn [app].
  - apply spec_bind_emit; simpl (ask _); cbn [app].
    destruct (status r >=? 400).
    + apply spec_bind_throw. now left.
    + apply spec_bind_ret.
      apply spec_bind_sleep; simpl (ask _); cbn [app].
      assert (Hend : forall (clicked : bool),
                 spec ask
                   (t <- Date_now;;
                    console_log (W:=W) (Keepalive.succeeded_msg (t - startedAt) clicked))
                   (fun o v => v = [])).
      { intros clicked. apply spec_bind_now; intros t. apply spec_emit. reflexivity. }
      eapply spec_bind; [apply spec_checkForWakeButton_asks | | | |].
      * intros [|] v1 Hv1; cbn [negb].
        -- apply spec_bind_ret.
           eapply spec_weaken; [apply (Hend true)|]. intros o v ->. rewrite app_nil_r.
           right; left. exists (Val true). split; [discriminate | exact Hv1].
        -- cbn in Hv1. subst v1. cbn [app].
           apply spec_bind with
             (P := fun o v => (exists e, o = Throw e /\ v = [AFrames (Rejected e)]) \/
                              (exists frames w, v = AFrames (Resolved frames) :: w /\
                                                Swept frames o w)).
           ++ apply spec_bind_drive; [intros frames | intros e; left; eauto];
                simpl (ask _); cbn [app].
              eapply spec_weaken; [apply spec_check_frames_asks|].
              intros o v Hv. right. eauto.
           ++ intros clicked v1 Hv1.
              eapply spec_weaken; [apply (Hend clicked)|]. intros o v ->. rewrite app_nil_r.
              destruct Hv1 as [[e [H _]] | [frames [w [-> Hw]]]]; [discriminate|].
              right; right; right. eauto.
           ++ intros e v [[e' [_ ->]] | [frames [w [-> Hw]]]].
              ** right; right; left. eauto.
              ** right; right; right. eauto.
           ++ intros c v [[e' [H _]] | [frames [w [-> Hw]]]]; [discriminate|].
              right; right; right. eauto.
           ++ intros v [[e' [H _]] | [frames [w [-> Hw]]]]; [discriminate|].
              right; right; right. eauto.
      * intros e v Hv. right; left. exists (Throw e). split; [discriminate | exact Hv].
      * intros c v [].
      * intros v [].
  - apply spec_throw. now left.
Qed.

End KeepaliveRuns.

(** ** Further properties of the retrying script *)

Lemma or_else_falsy (o : option string) (dflt : string) :
  truthy o = false -> or_else o dflt = dflt.
Proof.
  unfold truthy, or_else. destruct o as [s|]; [|reflexivity].
  intros H. now rewrite H.
Qed.

Section RunProperties.

Context {W : Type}.
Variable driver : forall c : Call, W -> Reply (Res c) * W.
Variable env : Env.

(** X1. A run ends in overall success or in [process.exit(1)], never in an
    uncaught exception: a successful run logs no failure reason and one closing
    message, a failed run logs exactly one reason, out of the four the script
    has, and no closing message. *)
Theorem run_ends_in_success_or_exit_1 (w : W) (t0 : Z) :
  let r := Retrying.main driver env (init w t0) in
  let ms := marks (trace (snd r)) in
  (fst r = Val tt /\ reasons ms = [] /\ length (success_messages ms) = 1%nat) \/
  (fst r = Exit 1 /\ success_messages ms = [] /\
   exists reason,
     reasons ms = [reason] /\
     (reason = "STREAMLIT_URL env var is required"%string \/
      reason = Retrying.GENERIC_FAILURE \/
      reason = Retrying.READY_FAILURE \/
      reason = Retrying.STILL_PRESENT_FAILURE)).
Proof.
  destruct (Retrying.main driver env (init w t0)) as [out st] eqn:E. cbn [fst snd].
  shape_of E st. open_run E; cbn; eauto 9.
Qed.

(** X2. A run launches at most one browser, navigates at most once, issues at
    most [WAKE_MAX_ATTEMPTS] clicks, and sleeps for backoff 2000 ms, then
    4000 ms, and never a third time. *)
Theorem run_is_bounded (w : W) (t0 : Z) :
  let ms := marks (trace (snd (Retrying.main driver env (init w t0)))) in
  (launch_count ms <= 1)%nat /\
  (length (navigations ms) <= 1)%nat /\
  (click_count ms <= Z.to_nat Retrying.WAKE_MAX_ATTEMPTS)%nat /\
  (backoff_delays ms = [] \/ backoff_delays ms = [2000] \/ backoff_delays ms = [2000; 4000]).
Proof.
  destruct (Retrying.main driver env (init w t0)) as [out st] eqn:E. cbn [fst snd].
  shape_of E st. open_run E; cbn; repeat split; auto; lia.
Qed.

(** X3. The attempts of a run are numbered 1, 2, 3 in order, and every attempt
    but the last one recorded ended with the control still present. *)
Theorem attempts_are_consecutive (w : W) (t0 : Z) :
  let os := outcomes (marks (trace (snd (Retrying.main driver env (init w t0))))) in
  map fst os = firstn (length os) [1; 2; 3] /\
  Forall (fun ao => exists l, snd ao = ClickedButStillPresent l) (removelast os).
Proof.
  destruct (Retrying.main driver env (init w t0)) as [out st] eqn:E. cbn [fst snd].
  shape_of E st. open_run E; cbn; split; try reflexivity; repeat constructor; cbn; eauto.
Qed.

(** X4. Without a URL the script exits with code 1 before it launches a browser;
    the summary, when a sink is configured, says that the URL is not set. *)
Theorem unconfigured_run_exits_before_launch (w : W) (t0 : Z) :
  truthy (STREAMLIT_URL env) = false ->
  let r := Retrying.main driver env (init w t0) in
  let ms := marks (trace (snd r)) in
  fst r = Exit 1 /\
  launch_count ms = 0%nat /\
  reasons ms = ["STREAMLIT_URL env var is required"%string] /\
  summaries ms =
    if truthy (GITHUB_STEP_SUMMARY env) then
      [(or_else (GITHUB_STEP_SUMMARY env) EmptyString,
        buildFailureSummary ["URL: not set"%string;
                             "Reason: STREAMLIT_URL env var is required"%string])]
    else [].
Proof.
  intros Hu.
  destruct (Retrying.main driver env (init w t0)) as [out st] eqn:E. cbn [fst snd].
  shape_of E st.
  assert (Hl : failure_lines env "STREAMLIT_URL env var is required" None
               = ["URL: not set"%string; "Reason: STREAMLIT_URL env var is required"%string]).
  { unfold failure_lines. now rewrite (or_else_falsy _ _ Hu). }
  open_run E; try congruence.
  all: repeat match goal with
         | H : truthy (GITHUB_STEP_SUMMARY env) = _ |- _ => rewrite H
         end; try rewrite Hl; cbn; auto.
Qed.

(** X5. When [browser.close()] fails the failure is logged and the run still
    ends in overall success, having called close once. *)
Theorem failed_close_is_only_logged (w : W) (t0 : Z) (e : Error) :
  let r := Retrying.main driver env (init w t0) in
  In (MErrorObj "Failed to close browser" e) (marks (trace (snd r))) ->
  fst r = Val tt /\ close_count (marks (trace (snd r))) = 1%nat.
Proof.
  destruct (Retrying.main driver env (init w t0)) as [out st] eqn:E. cbn [fst snd].
  shape_of E st. open_run E; cbn; intros Hin; absurd_in; auto.
Qed.

End RunProperties.

(** ** Further properties of the reporting functions *)

Lemma string_app_assoc (a b c : string) : ((a ++ b) ++ c = a ++ (b ++ c))%string.
Proof. induction a as [|x a IH]; cbn; [reflexivity | now rewrite IH]. Qed.

Lemma string_app_empty (a : string) : (a ++ EmptyString)%string = a.
Proof. induction a as [|x a IH]; cbn; [reflexivity | now rewrite IH]. Qed.

Lemma concat_cons (sep x y : string) (ys : list string) :
  String.concat sep (x :: y :: ys) = (x ++ sep ++ String.concat sep (y :: ys))%string.
Proof. reflexivity. Qed.

Lemma concat_bullets (lines : list string) (tail : string) :
  String.concat nl (map (fun line => ("- " ++ line)%string) lines ++ [tail])
  = (String.concat EmptyString (map (fun line => ("- " ++ line ++ nl)%string) lines)
       ++ tail)%string.
Proof.
  induction lines as [|line rest IH]; [reflexivity|].
  cbn [map app].
  destruct (map (fun l => ("- " ++ l)%string) rest ++ [tail]) as [|x xs] eqn:Hx.
  { destruct (map (fun l => ("- " ++ l)%string) rest); discriminate Hx. }
  rewrite concat_cons, IH.
  destruct rest as [|line' rest'].
  - cbn [map String.concat]. cbn [append]. now rewrite !string_app_assoc.
  - cbn [map]. rewrite concat_cons. cbn [append]. now rewrite !string_app_assoc.
Qed.

(** X6. The failure summary is the heading, an empty line, and then one bullet
    line per given line, each ended by a line feed; with no lines it is the
    heading and the empty line. *)
Theorem summary_layout (lines : list string) :
  buildFailureSummary lines
  = ("### Streamlit keepalive failed" ++ nl ++ nl
       ++ String.concat EmptyString (map (fun line => "- " ++ line ++ nl) lines))%string.
Proof.
  unfold buildFailureSummary, join. cbn [app].
  destruct (map (fun line => ("- " ++ line)%string) lines ++ [EmptyString]) as [|x xs] eqn:Hx.
  { destruct (map (fun line => ("- " ++ line)%string) lines); discriminate Hx. }
  rewrite concat_cons, concat_cons, <- Hx, concat_bullets.
  now rewrite string_app_empty.
Qed.

Lemma frames_calls_app (v w : list Sight) :
  frames_calls (v ++ w) = (frames_calls v + frames_calls w)%nat.
Proof. unfold frames_calls. now rewrite filter_app, length_app. Qed.

Lemma Scanned_no_frames contexts o v : Scanned contexts o v -> frames_calls v = 0%nat.
Proof. induction 1; cbn; auto. Qed.

Lemma Scanned_returns contexts o v :
  Scanned contexts o v -> match o with Val _ | Throw _ => True | _ => False end.
Proof. induction 1; auto. Qed.

Section FunctionProperties.

Context {W : Type}.
Variable driver : forall c : Call, W -> Reply (Res c) * W.
Variable env : Env.

(** X7. [appendFailureSummary] never throws and never ends the process, whatever
    the file system does; it appends the summary of its lines to the sink
    once when a sink is configured, and writes nothing otherwise. *)
Theorem appendFailureSummary_is_contained (lines : list string) (st : State W) :
  let r := appendFailureSummary driver env lines st in
  fst r = Val tt /\
  exists d,
    trace (snd r) = trace st ++ d /\
    summaries (marks d) =
      if truthy (GITHUB_STEP_SUMMARY env) then
        [(or_else (GITHUB_STEP_SUMMARY env) EmptyString, buildFailureSummary lines)]
      else [].
Proof.
  destruct (appendFailureSummary driver env lines st) as [o st'] eqn:E. cbn [fst snd].
  destruct (spec_appendFailureSummary driver env lines _ _ _ E) as [_ [_ [d [Ht [-> Hv]]]]].
  split; [reflexivity|]. exists d. split; [exact Ht|].
  change (marks d) with (obs mark d).
  destruct (truthy (GITHUB_STEP_SUMMARY env)).
  - destruct Hv as [noise [-> [-> | [we ->]]]]; reflexivity.
  - now rewrite Hv.
Qed.

(** X8. [fail] never returns and never throws: whatever the driver does, also
    when the summary cannot be written, it ends the process with code 1, and
    the first thing it does is to log the reason. *)
Theorem fail_always_exits {A : Type} (reason : string) (err : option Error) (st : State W) :
  let r := fail (A:=A) driver env reason err st in
  fst r = Exit 1 /\
  exists d, trace (snd r) = trace st ++ EvConsole LError reason None :: d.
Proof.
  destruct (fail (A:=A) driver env reason err st) as [o st'] eqn:E. cbn [fst snd].
  destruct (spec_fail driver env (A:=A) reason err _ _ _ E) as [_ [_ [d0 [_ [-> _]]]]].
  split; [reflexivity|].
  unfold fail in E. erewrite bind_Val in E by reflexivity.
  assert (Hrest : spec mark
            (match err with
             | Some e => console_error EmptyString (Some e)
             | None => ret tt
             end;;
             appendFailureSummary driver env (failure_lines env reason err);;
             process_exit (A:=A) 1)
            (fun _ _ => True)).
  { eapply spec_bind with (P := fun _ _ => True); auto.
    - destruct err; [apply spec_emit | apply spec_ret]; exact I.
    - intros [] v1 _. eapply spec_bind with (P := fun _ _ => True); auto.
      + eapply spec_weaken; [apply spec_appendFailureSummary | auto].
      + intros [] v2 _. apply spec_exit. exact I. }
  destruct (Hrest _ _ _ E) as [_ [_ [d [Ht _]]]]. cbn [trace] in Ht.
  exists d. rewrite Ht, <- app_assoc. reflexivity.
Qed.

(** X9. The readiness step issues the wait on the clicked context and then
    the wait for a navigation.  When both return their promise it goes on as
    soon as the earlier of the two settles, however they settle, sleeps
    2000 ms, and completes.  When the first wait throws before it returns a
    promise the second is not issued; when either throws, the handler runs
    [fail] with the readiness reason and the error thrown. *)
Theorem readiness_step_exact (lastClickedContext : Ctx) (st : State W) :
  let c1 := WaitForFunction lastClickedContext WAKE_UP_BUTTON_SELECTOR
              Retrying.WAKE_READY_TIMEOUT_MS in
  let c2 := WaitForNavigation Retrying.WAKE_READY_TIMEOUT_MS in
  let r1 := fst (driver c1 (world st)) in
  let w1 := snd (driver c1 (world st)) in
  let r2 := fst (driver c2 w1) in
  let w2 := snd (driver c2 w1) in
  Retrying.await_ready driver env lastClickedContext st
  = match r1 with
    | Throws e =>
        fail driver env Retrying.READY_FAILURE (Some e)
          (mkState w1 (clock st) (browser st) (trace st ++ [EvCall c1 (Rejected e)]))
    | Returns p1 =>
        match r2 with
        | Throws e =>
            fail driver env Retrying.READY_FAILURE (Some e)
              (mkState w2 (clock st) (browser st)
                 (trace st ++ [EvCall c1 (settled p1); EvCall c2 (Rejected e)]))
        | Returns p2 =>
            (Val tt,
             mkState w2
               (clock st + Z.of_N (N.min (took p1) (took p2)) + 2000)
               (browser st)
               (trace st ++ [EvCall c1 (settled p1); EvCall c2 (settled p2);
                             EvSleep ReadyGrace 2000]))
        end
    end.
Proof.
  cbv zeta.
  unfold Retrying.await_ready, try_catch, bind, start.
  destruct (driver (WaitForFunction lastClickedContext WAKE_UP_BUTTON_SELECTOR
                      Retrying.WAKE_READY_TIMEOUT_MS) (world st)) as [[p1|e1] w1].
  2: { cbn [world clock browser trace fst snd ending]. reflexivity. }
  cbn [world clock browser trace fst snd ending].
  destruct (driver (WaitForNavigation Retrying.WAKE_READY_TIMEOUT_MS) w1) as [[p2|e2] w2].
  2: { cbn [world clock browser trace fst snd ending]. now rewrite <- app_assoc. }
  cbn [world clock browser trace fst snd ending].
  unfold await, sleep, emit, advance, bind.
  assert (Ht : Z.of_N (took (Promise_race (catch_null p1) (catch_null p2)))
               = Z.of_N (N.min (took p1) (took p2))).
  { unfold Promise_race, catch_null. cbn [took].
    destruct (took p2 <? took p1)%N eqn:Hlt; cbn [took].
    - apply N.ltb_lt in Hlt. f_equal. lia.
    - apply N.ltb_ge in Hlt. f_equal. lia. }
  destruct (race_caught p1 p2) as [x Hx]. cbn in Hx |- *. rewrite Hx. cbn.
  cbn in Ht. rewrite Ht.
  rewrite <- !app_assoc. cbn [app].
  repeat f_equal. lia.
Qed.

(** X10. The locator gives up only once its deadline has passed: it returns no
    context no earlier than [WAKE_BUTTON_POLL_TIMEOUT_MS] after it started. *)
Theorem locator_gives_up_only_at_deadline (st st' : State W) :
  Retrying.findAndClickWakeButton driver st = (Val None, st') ->
  clock st + Retrying.WAKE_BUTTON_POLL_TIMEOUT_MS <= clock st'.
Proof.
  unfold Retrying.findAndClickWakeButton.
  rewrite (bind_Val Date_now _ st (clock st) st eq_refl).
  generalize (clock st + Retrying.WAKE_BUTTON_POLL_TIMEOUT_MS) as pollDeadline.
  generalize Retrying.poll_rounds as rounds. clear.
  intros rounds pollDeadline. revert st.
  induction rounds as [|rounds IH]; intros st; cbn [Retrying.poll];
    rewrite (bind_Val Date_now _ st (clock st) st eq_refl);
    destruct (clock st <? pollDeadline) eqn:Hlt;
    try (intros E; inversion E; subst; apply Z.ltb_ge in Hlt; exact Hlt).
  destruct (drive driver Frames st) as [[frames|e|c|] st1] eqn:E1;
      [ rewrite (bind_Val _ _ _ _ _ E1)
      | rewrite (bind_Throw _ _ _ _ _ E1); discriminate
      | rewrite (bind_Exit _ _ _ _ _ E1); discriminate
      | unfold bind; rewrite E1; discriminate ].
  destruct (Retrying.scan driver (Retrying.contexts_of frames) st1)
    as [[[c|]|e|c|] st2] eqn:E2;
    [ rewrite (bind_Val _ _ _ _ _ E2); discriminate
    | rewrite (bind_Val _ _ _ _ _ E2)
    | rewrite (bind_Throw _ _ _ _ _ E2); discriminate
    | rewrite (bind_Exit _ _ _ _ _ E2); discriminate
    | unfold bind; rewrite E2; discriminate ].
  erewrite bind_Val by reflexivity. apply IH.
Qed.

(** X11. The locator asks the driver for the frames at most 60 times, once per
    polling round, and comes back with a value or an exception. *)
Theorem locator_polls_at_most_60_times (st : State W) :
  let r := Retrying.findAndClickWakeButton driver st in
  ((exists c, fst r = Val c) \/ (exists e, fst r = Throw e)) /\
  exists d, trace (snd r) = trace st ++ d /\ (frames_calls (sights d) <= 60)%nat.
Proof.
  destruct (Retrying.findAndClickWakeButton driver st) as [o st'] eqn:E. cbn [fst snd].
  split.
  - destruct (spec_findAndClickWakeButton driver _ _ _ E) as [_ [_ [d [_ Ho]]]].
    destruct o as [c|e|c|]; cbn in Ho; try contradiction; eauto.
  - assert (Hs : forall rounds pollDeadline,
               spec sight (Retrying.poll driver rounds pollDeadline)
                 (fun _ v => (frames_calls v <= rounds)%nat)).
    { induction rounds as [|rounds IH]; intros dl; cbn [Retrying.poll];
        apply spec_bind_now; intros t; destruct (t <? dl);
        try (apply spec_ret; cbn; lia); try (apply spec_spent; cbn; lia).
      apply spec_bind_drive; [intros frames | intros e; cbn; lia].
      simpl (sight _). cbn [app].
      eapply spec_bind; [apply spec_scan_sights | | | |].
      - intros [c|] v1 Hv1.
        + apply spec_ret. rewrite app_nil_r.
          change (S (frames_calls v1) <= S rounds)%nat.
          rewrite (Scanned_no_frames _ _ _ Hv1). lia.
        + apply spec_bind_sleep. simpl (sight _). cbn [app].
          eapply spec_weaken; [apply IH|]. intros o2 v Hv.
          change (S (frames_calls (v1 ++ v)) <= S rounds)%nat.
          rewrite frames_calls_app, (Scanned_no_frames _ _ _ Hv1). cbv beta in Hv. lia.
      - intros e v Hv.
        change (S (frames_calls v) <= S rounds)%nat.
        rewrite (Scanned_no_frames _ _ _ Hv). lia.
      - intros c v Hv. now apply Scanned_returns in Hv.
      - intros v Hv. now apply Scanned_returns in Hv. }
    unfold Retrying.findAndClickWakeButton in E.
    destruct (spec_bind_now sight _ _
                (fun t => Hs Retrying.poll_rounds (t + Retrying.WAKE_BUTTON_POLL_TIMEOUT_MS))
                _ _ _ E) as [_ [_ [d [Ht Hv]]]].
    exists d. split; [exact Ht | exact Hv].
Qed.

End FunctionProperties.

(** ** Errors of the locator and of the re-query *)

Lemma obs_whole (d : list Event) : obs whole d = d.
Proof.
  unfold obs, whole. induction d as [|x d IH]; cbn; [reflexivity | now rewrite IH].
Qed.

Lemma failures_app (d1 d2 : list Event) : failures (d1 ++ d2) = failures d1 ++ failures d2.
Proof. apply flat_map_app. Qed.

Lemma FromDriver_later {A B : Type} (a : A) (o : Outcome B) (pre d : list Event) :
  FromDriver (Val a) pre -> FromDriver o d -> FromDriver o (pre ++ d).
Proof.
  cbn. intros Hpre.
  destruct o as [b|e|c|]; cbn; auto.
  - intros Hd. now rewrite failures_app, Hpre, Hd.
  - intros [pre' [c [-> Hp]]]. exists (pre ++ pre'), c. split.
    + now rewrite app_assoc.
    + now rewrite failures_app, Hpre, Hp.
  - intros Hd. now rewrite failures_app, Hpre, Hd.
Qed.

Section Errors.

Context {W : Type}.
Variable driver : forall c : Call, W -> Reply (Res c) * W.
Variable env : Env.

Lemma fd_bind {A B} (m : M W A) (k : A -> M W B) :
  spec whole m FromDriver -> (forall a, spec whole (k a) FromDriver) ->
  spec whole (bind m k) FromDriver.
Proof.
  intros Hm Hk. eapply spec_bind; [exact Hm | | | |].
  - intros a v1 Hv1. eapply spec_weaken; [apply Hk|].
    intros o v Hv. now apply FromDriver_later with (a := a).
  - intros e v Hv. exact Hv.
  - intros c v [].
  - intros v Hv. exact Hv.
Qed.

Lemma fd_drive (c : Call) : spec whole (drive driver c) FromDriver.
Proof.
  apply spec_drive. intros [a|e]; cbn; [reflexivity|].
  exists [], c. split; reflexivity.
Qed.

Lemma fd_emit (e : Event) :
  failure e = [] -> spec whole (emit (W:=W) e) FromDriver.
Proof. intros He. apply spec_emit. cbn. now rewrite He. Qed.

Lemma fd_sleep (site : SleepSite) (ms : Z) : spec whole (sleep (W:=W) site ms) FromDriver.
Proof. apply spec_sleep. reflexivity. Qed.

Lemma fd_ret {A} (a : A) : spec whole (ret (W:=W) a) FromDriver.
Proof. apply spec_ret. reflexivity. Qed.

Lemma fd_scan (contexts : list (Ctx * string)) :
  spec whole (Retrying.scan driver contexts) FromDriver.
Proof.
  induction contexts as [|[ctx label] rest IH]; cbn [Retrying.scan].
  - apply fd_ret.
  - apply fd_bind; [apply fd_drive|]. intros [button|].
    + apply fd_bind; [now apply fd_emit|]. intros _.
      apply fd_bind; [apply fd_drive|]. intros _.
      apply fd_bind; [apply fd_drive|]. intros box.
      apply fd_bind; [apply fd_drive|]. intros inViewport.
      apply fd_bind; [now apply fd_emit|]. intros _.
      destruct (negb match box with Some _ => true | None => false end && negb inViewport).
      * exact IH.
      * apply fd_bind; [apply fd_sleep|]. intros _.
        apply fd_bind; [apply fd_drive|]. intros _.
        apply fd_bind; [now apply fd_emit|]. intros _.
        apply fd_ret.
    + apply fd_bind; [now apply fd_emit|]. intros _. exact IH.
Qed.

Lemma fd_poll (rounds : nat) (pollDeadline : Z) :
  spec whole (Retrying.poll driver rounds pollDeadline) FromDriver.
Proof.
  induction rounds as [|rounds IH]; cbn [Retrying.poll];
    apply spec_bind_now; intros t; destruct (t <? pollDeadline);
    try (apply spec_ret; reflexivity); try (apply spec_spent; reflexivity).
  apply fd_bind; [apply fd_drive|]. intros frames.
  apply fd_bind; [apply fd_scan|]. intros [c|].
  - apply fd_ret.
  - apply fd_bind; [apply fd_sleep|]. intros _. exact IH.
Qed.

(** X16. The locator swallows no failure of the driver and raises no error
    of its own.  When it returns, no call it issued has failed; when it
    throws, exactly one call has failed, the last it issued, and the error
    thrown is the error of that call.  It ends in no other way. *)
Theorem locator_errors_come_from_the_driver (st : State W) :
  let r := Retrying.findAndClickWakeButton driver st in
  exists d,
    trace (snd r) = trace st ++ d /\
    match fst r with
    | Val _ => failures d = []
    | Throw e => exists pre c, d = pre ++ [EvCall c (Rejected e)] /\ failures pre = []
    | Exit _ => False
    | Spent => False
    end.
Proof.
  destruct (Retrying.findAndClickWakeButton driver st) as [o st'] eqn:E. cbn [fst snd].
  assert (Hl : match o with Exit _ | Spent => False | _ => True end).
  { destruct (spec_findAndClickWakeButton driver _ _ _ E) as [_ [_ [d [_ Ho]]]].
    destruct o; cbn in Ho; auto. }
  unfold Retrying.findAndClickWakeButton in E.
  rewrite (bind_Val Date_now _ st (clock st) st eq_refl) in E.
  destruct (fd_poll _ _ _ _ _ E) as [_ [_ [d [Ht Hd]]]].
  rewrite obs_whole in Hd. exists d. split; [exact Ht|].
  destruct o; cbn in Hd, Hl; auto.
Qed.

(** X15. When the re-query of the clicked context is rejected with an error
    whose message names neither a destroyed nor a missing execution context,
    the re-query throws that error again: the attempt ends with the error and
    records no outcome. *)
Theorem other_requery_errors_are_rethrown
        (attempt : Z) (clicked : Retrying.Clicked) (st st2 : State W)
        (r : Reply (option ElementHandle)) (w' : W) (err : Error) :
  (console_log (Retrying.clicked_msg clicked attempt);;
   Retrying.await_ready driver env (Retrying.ctx clicked)) st = (Val tt, st2) ->
  driver (Query (Retrying.ctx clicked) WAKE_UP_BUTTON_SELECTOR) (world st2) = (r, w') ->
  ending r = Rejected err ->
  includes (message err) "Execution context was destroyed" = false ->
  includes (message err) "Cannot find context" = false ->
  (exists st3, Retrying.requery driver (Retrying.ctx clicked) st2 = (Throw err, st3)) /\
  (exists st4,
      Retrying.confirm driver env attempt clicked st = (Throw err, st4) /\
      outcomes (marks (trace st4)) = outcomes (marks (trace st))).
Proof.
  intros Hready Hq Hp Hm1 Hm2.
  assert (Hre : exists st3,
             Retrying.requery driver (Retrying.ctx clicked) st2 = (Throw err, st3)).
  { unfold Retrying.requery, try_catch, start, bind, await, advance.
    rewrite Hq. destruct r as [p|e]; cbn in Hp |- *.
    - rewrite Hp. cbn. rewrite Hm1, Hm2. cbn. unfold throw. eauto.
    - inversion Hp; subst e. eauto. }
  split; [exact Hre|].
  destruct Hre as [st3 Hre].
  assert (Hc : Retrying.confirm driver env attempt clicked st = (Throw err, st3)).
  { unfold Retrying.confirm.
    unfold bind at 1, console_log, emit in Hready. cbv beta iota in Hready.
    unfold bind at 1, console_log, emit. cbv beta iota.
    rewrite (bind_Val _ _ _ _ _ Hready).
    now rewrite (bind_Throw _ _ _ _ _ Hre). }
  exists st3. split; [exact Hc|].
  destruct (spec_confirm driver env attempt clicked _ _ _ Hc) as [_ [_ [d [Ht Hv]]]].
  cbn in Hv. rewrite Ht, marks_app. change (marks d) with (obs mark d). rewrite Hv.
  now rewrite app_nil_r.
Qed.

End Errors.

(** ** The locator on a driver whose answers do not change *)

Section Forward.

Context {W : Type}.
Variable driver : forall c : Call, W -> Reply (Res c) * W.
Variable answer : forall c : Call, Reply (Res c).
Hypothesis stationary : forall c w, fst (driver c w) = answer c.

Lemma drive_answer (c : Call) (a : Res c) (st : State W) :
  ending (answer c) = Resolved a -> exists st', drive driver c st = (Val a, st').
Proof.
  intros H. rewrite <- (stationary c (world st)) in H.
  unfold drive, start, bind, await, advance.
  destruct (driver c (world st)) as [[p|e] w']; cbn in H |- *.
  - rewrite H. cbn. unfold ret. eauto.
  - discriminate H.
Qed.

Lemma scan_passes (ctx : Ctx) (l : string) (rest : list (Ctx * string)) (st : State W) :
  (exists p, seen answer ctx = Some p /\ Retrying.actionable p = false) ->
  exists st1, Retrying.scan driver ((ctx, l) :: rest) st = Retrying.scan driver rest st1.
Proof.
  intros [p [Hs Ha]]. unfold seen in Hs. cbn [Retrying.scan].
  destruct (ending (answer (Query ctx WAKE_UP_BUTTON_SELECTOR))) as [[el|]|e] eqn:Hq;
    [| |discriminate Hs].
  - destruct (ending (answer (ScrollIntoView el))) as [u|e] eqn:Hsc; [|discriminate Hs].
    destruct (ending (answer (BoundingBox el))) as [box|e] eqn:Hb; [|discriminate Hs].
    destruct (ending (answer (IsIntersectingViewport el))) as [inV|e] eqn:Hi;
      [|discriminate Hs].
    inversion Hs; subst p. cbn in Ha. apply negb_false_iff in Ha.
    destruct (drive_answer _ _ st Hq) as [s1 E1]. rewrite (bind_Val _ _ _ _ _ E1).
    erewrite bind_Val by reflexivity.
    match goal with |- context [bind (drive driver (ScrollIntoView el)) _ ?s] =>
      destruct (drive_answer _ _ s Hsc) as [s2 E2] end.
    rewrite (bind_Val _ _ _ _ _ E2).
    destruct (drive_answer _ _ s2 Hb) as [s3 E3]. rewrite (bind_Val _ _ _ _ _ E3).
    destruct (drive_answer _ _ s3 Hi) as [s4 E4]. rewrite (bind_Val _ _ _ _ _ E4).
    erewrite bind_Val by reflexivity.
    rewrite Ha. eauto.
  - destruct (drive_answer _ _ st Hq) as [s1 E1]. rewrite (bind_Val _ _ _ _ _ E1).
    erewrite bind_Val by reflexivity. eauto.
Qed.

Lemma scan_hits (ctx : Ctx) (l : string) (rest : list (Ctx * string)) (st : State W)
      (el : ElementHandle) (box : option Box) (inViewport : bool) :
  seen answer ctx = Some (Match el box inViewport) ->
  Retrying.actionable (Match el box inViewport) = true ->
  ending (answer (Click el 150)) = Resolved tt ->
  exists st', Retrying.scan driver ((ctx, l) :: rest) st
              = (Val (Some (Retrying.mkClicked l ctx)), st').
Proof.
  intros Hs Ha Hc. unfold seen in Hs. cbn [Retrying.scan].
  destruct (ending (answer (Query ctx WAKE_UP_BUTTON_SELECTOR))) as [[el'|]|e] eqn:Hq;
    try discriminate Hs.
  destruct (ending (answer (ScrollIntoView el'))) as [u|e] eqn:Hsc; [|discriminate Hs].
  destruct (ending (answer (BoundingBox el'))) as [box'|e] eqn:Hb; [|discriminate Hs].
  destruct (ending (answer (IsIntersectingViewport el'))) as [inV'|e] eqn:Hi;
    [|discriminate Hs].
  inversion Hs; subst el' box' inV'. cbn in Ha. apply negb_true_iff in Ha.
  destruct (drive_answer _ _ st Hq) as [s1 E1]. rewrite (bind_Val _ _ _ _ _ E1).
  erewrite bind_Val by reflexivity.
  match goal with |- context [bind (drive driver (ScrollIntoView el)) _ ?s] =>
    destruct (drive_answer _ _ s Hsc) as [s2 E2] end.
  rewrite (bind_Val _ _ _ _ _ E2).
  destruct (drive_answer _ _ s2 Hb) as [s3 E3]. rewrite (bind_Val _ _ _ _ _ E3).
  destruct (drive_answer _ _ s3 Hi) as [s4 E4]. rewrite (bind_Val _ _ _ _ _ E4).
  erewrite bind_Val by reflexivity.
  rewrite Ha.
  erewrite bind_Val by reflexivity.
  match goal with |- context [bind (drive driver (Click el 150)) _ ?s] =>
    destruct (drive_answer _ _ s Hc) as [s5 E5] end.
  rewrite (bind_Val _ _ _ _ _ E5).
  erewrite bind_Val by reflexivity. unfold ret. eauto.
Qed.

(** X24. With a driver whose answers do not depend on its state, the locator
    returns, in its first round, the first context, in the order top-level
    page and then the frames as the driver lists them, in which it sees an
    actionable match, whatever the contexts after it hold and also when
    contexts before it hold a match that is not actionable. *)
Theorem first_actionable_context_is_returned
        (st : State W) (frames : list Frame) (pre post : list (Ctx * string))
        (ctx : Ctx) (l : string)
        (el : ElementHandle) (box : option Box) (inViewport : bool) :
  ending (answer Frames) = Resolved frames ->
  (CtxPage, "main page"%string)
    :: map (fun frame => (CtxFrame frame, Retrying.frame_label frame)) frames
  = pre ++ (ctx, l) :: post ->
  Forall (fun cl => exists p, seen answer (fst cl) = Some p /\
                              Retrying.actionable p = false) pre ->
  seen answer ctx = Some (Match el box inViewport) ->
  Retrying.actionable (Match el box inViewport) = true ->
  ending (answer (Click el 150)) = Resolved tt ->
  exists st',
    Retrying.findAndClickWakeButton driver st = (Val (Some (Retrying.mkClicked l ctx)), st') /\
    frames_calls (sights (trace st')) = S (frames_calls (sights (trace st))).
Proof.
  intros Hf Hc Hpre Hs Ha Hk.
  assert (Hscan : forall st1, exists st',
             Retrying.scan driver (pre ++ (ctx, l) :: post) st1
             = (Val (Some (Retrying.mkClicked l ctx)), st')).
  { clear Hc. induction Hpre as [|[ctx' l'] pre' Hp _ IH]; intros st1; cbn [app].
    - now apply scan_hits with (el := el) (box := box) (inViewport := inViewport).
    - destruct (scan_passes ctx' l' (pre' ++ (ctx, l) :: post) st1 Hp) as [st2 ->].
      apply IH. }
  unfold Retrying.findAndClickWakeButton.
  rewrite (bind_Val Date_now _ st (clock st) st eq_refl).
  replace Retrying.poll_rounds with (S 59) by reflexivity. cbn [Retrying.poll].
  rewrite (bind_Val Date_now _ st (clock st) st eq_refl).
  replace (clock st <? clock st + Retrying.WAKE_BUTTON_POLL_TIMEOUT_MS) with true
    by (symmetry; apply Z.ltb_lt; unfold Retrying.WAKE_BUTTON_POLL_TIMEOUT_MS; lia).
  destruct (drive_answer Frames frames st Hf) as [s1 E1].
  rewrite (bind_Val _ _ _ _ _ E1).
  unfold Retrying.contexts_of. rewrite Hc.
  destruct (Hscan s1) as [st' E2]. rewrite (bind_Val _ _ _ _ _ E2).
  exists st'. split; [reflexivity|].
  assert (H1 : spec sight (drive driver Frames)
                 (fun o v => frames_calls v = 1%nat)).
  { apply (spec_drive sight driver Frames). intros s. reflexivity. }
  destruct (H1 _ _ _ E1) as [_ [_ [d1 [Ht1 Hv1]]]].
  destruct (spec_scan_sights driver _ _ _ _ E2) as [_ [_ [d2 [Ht2 Hv2]]]].
  apply Scanned_no_frames in Hv2.
  rewrite Ht2, Ht1. unfold sights. change (flat_map sight) with (obs sight).
  rewrite !obs_app, !frames_calls_app, Hv1, Hv2. lia.
Qed.

End Forward.

(** ** [.github/scripts/keepalive.js] *)

Ltac open_keepalive_run H :=
  inversion H; subst; open_reported; open_closed;
  repeat match goal with
    | clicked : bool |- _ => destruct clicked
    end.

Lemma Asked_click (context : Ctx) (o : Outcome bool) (v pre post : list Ask)
      (el : ElementHandle) (s : Settled unit) :
  Asked context o v -> v = pre ++ AClick el s :: post ->
  post = [] /\ pre = [AQuery context (Resolved (Some el))].
Proof.
  intros Ha Hv.
  destruct o as [[|]|e|c|]; cbn in Ha; try contradiction.
  - destruct Ha as [el' ->].
    destruct pre as [|a [|b pre]]; cbn in Hv; inversion Hv; subst; auto.
    destruct pre; discriminate.
  - subst v. destruct pre as [|a pre]; cbn in Hv; inversion Hv.
    destruct pre; discriminate.
  - destruct Ha as [-> | [el' ->]].
    + destruct pre as [|a pre]; cbn in Hv; inversion Hv. destruct pre; discriminate.
    + destruct pre as [|a [|b pre]]; cbn in Hv; inversion Hv; subst; auto.
      destruct pre; discriminate.
Qed.

Lemma Asked_no_frames (context : Ctx) (o : Outcome bool) (v : list Ask) (s : Settled (list Frame)) :
  Asked context o v -> ~ In (AFrames s) v.
Proof.
  intros Ha Hin.
  destruct o as [[|]|e|c|]; cbn in Ha; try contradiction.
  - destruct Ha as [el ->]. cbn in Hin. intuition discriminate.
  - subst v. cbn in Hin. intuition discriminate.
  - destruct Ha as [-> | [el ->]]; cbn in Hin; intuition discriminate.
Qed.

Lemma Swept_click (frames : list Frame) (o : Outcome bool) (v pre post : list Ask)
      (el : ElementHandle) (s : Settled unit) :
  Swept frames o v -> v = pre ++ AClick el s :: post ->
  post = [] /\ exists ctx pre', pre = pre' ++ [AQuery ctx (Resolved (Some el))].
Proof.
  intros Hs. revert pre.
  induction Hs as [|frame rest o v Hs IH|frame rest o v Hn Ha]; intros pre Hv.
  - destruct pre; discriminate.
  - destruct pre as [|a pre]; cbn in Hv; inversion Hv; subst.
    destruct (IH pre eq_refl) as [-> [ctx [pre' ->]]].
    split; [reflexivity|]. exists ctx, (AQuery (CtxFrame frame) (Resolved None) :: pre').
    reflexivity.
  - destruct (Asked_click _ _ _ _ _ _ _ Ha Hv) as [-> ->].
    split; [reflexivity|]. exists (CtxFrame frame), []. reflexivity.
Qed.

Lemma Swept_no_frames (frames : list Frame) (o : Outcome bool) (v : list Ask)
      (s : Settled (list Frame)) :
  Swept frames o v -> ~ In (AFrames s) v.
Proof.
  induction 1 as [|frame rest o v Hs IH|frame rest o v Hn Ha]; intros Hin.
  - destruct Hin.
  - destruct Hin as [Hin | Hin]; [discriminate | now apply IH].
  - exact (Asked_no_frames _ _ _ _ Ha Hin).
Qed.

Lemma Swept_cases (frames : list Frame) (o : Outcome bool) (v : list Ask) :
  Swept frames o v ->
  let miss := fun frame => AQuery (CtxFrame frame) (Resolved None) in
  match o with
  | Val false => v = map miss frames
  | Val true =>
      exists before frame after el,
        frames = before ++ frame :: after /\
        v = map miss before
              ++ [AQuery (CtxFrame frame) (Resolved (Some el)); AClick el (Resolved tt)]
  | Throw e =>
      exists before frame after,
        frames = before ++ frame :: after /\
        (v = map miss before ++ [AQuery (CtxFrame frame) (Rejected e)] \/
         exists el,
           v = map miss before
                 ++ [AQuery (CtxFrame frame) (Resolved (Some el)); AClick el (Rejected e)])
  | Exit _ => False
  | Spent => False
  end.
Proof.
  intros Hs miss.
  induction Hs as [|frame rest o v Hs IH|frame rest o v Hn Ha].
  - reflexivity.
  - destruct o as [[|]|e|c|]; try contradiction.
    + destruct IH as [before [f [after [el [-> ->]]]]].
      exists (frame :: before), f, after, el. split; reflexivity.
    + subst v. reflexivity.
    + destruct IH as [before [f [after [-> Hv]]]].
      exists (frame :: before), f, after. split; [reflexivity|].
      destruct Hv as [-> | [el ->]]; [now left | right; now exists el].
  - destruct o as [[|]|e|c|]; cbn in Ha; try contradiction.
    + destruct Ha as [el ->]. exists [], frame, rest, el. split; reflexivity.
    + exists [], frame, rest. split; [reflexivity|].
      destruct Ha as [-> | [el ->]]; [now left | right; now exists el].
Qed.

Section KeepaliveProperties.

Context {W : Type}.
Variable driver : forall c : Call, W -> Reply (Res c) * W.
Variable env : Env.

(** X17. A run of [keepalive.js] launches at most one browser, navigates at
    most once and clicks at most once: it never retries. *)
Theorem keepalive_clicks_at_most_once (w : W) (t0 : Z) :
  let ms := marks (trace (snd (Keepalive.main driver env (init w t0)))) in
  (launch_count ms <= 1)%nat /\
  (length (navigations ms) <= 1)%nat /\
  (click_count ms <= 1)%nat.
Proof.
  destruct (Keepalive.main driver env (init w t0)) as [out st] eqn:E. cbn [fst snd].
  apply keepalive_run_shape in E.
  remember (marks (trace st)) as ms eqn:Hms. clear Hms.
  open_keepalive_run E; cbn; repeat split; lia.
Qed.

(** X19. A run of [keepalive.js] ends in overall success, with the browser
    closed once, one closing message and no failure reason, or in
    [process.exit(1)], with one failure reason out of two, no closing message
    and the browser never closed; it never ends in an uncaught exception. *)
Theorem keepalive_closes_only_on_success (w : W) (t0 : Z) :
  let r := Keepalive.main driver env (init w t0) in
  let ms := marks (trace (snd r)) in
  (fst r = Val tt /\ close_count ms = 1%nat /\ reasons ms = [] /\
   length (success_messages ms) = 1%nat) \/
  (fst r = Exit 1 /\ close_count ms = 0%nat /\ success_messages ms = [] /\
   exists reason,
     reasons ms = [reason] /\
     (reason = "STREAMLIT_URL env var is required"%string \/
      reason = Keepalive.GENERIC_FAILURE)).
Proof.
  destruct (Keepalive.main driver env (init w t0)) as [out st] eqn:E. cbn [fst snd].
  apply keepalive_run_shape in E.
  remember (marks (trace st)) as ms eqn:Hms. clear Hms.
  open_keepalive_run E; cbn; eauto 8.
Qed.

(** X18. The closing message of a successful run of [keepalive.js] ends in
    [(wake-up button clicked)] exactly when the run issued a click. *)
Theorem keepalive_message_tells_whether_clicked (w : W) (t0 : Z) :
  let r := Keepalive.main driver env (init w t0) in
  let ms := marks (trace (snd r)) in
  fst r = Val tt ->
  exists t,
    success_messages ms = [Keepalive.succeeded_msg t (0 <? click_count ms)%nat].
Proof.
  destruct (Keepalive.main driver env (init w t0)) as [out st] eqn:E. cbn [fst snd].
  apply keepalive_run_shape in E.
  remember (marks (trace st)) as ms eqn:Hms. clear Hms.
  open_keepalive_run E; cbn; intros Ho; try discriminate; eauto.
Qed.

(** X20. In [keepalive.js] a navigation that is rejected, gives no response
    or answers with a status of 400 or more ends the run with exit code 1 and
    the generic failure reason, with the navigation error reported, before
    any click. *)
Theorem keepalive_failed_navigation_exits (w : W) (t0 : Z) (s : Settled (option Response)) :
  let r := Keepalive.main driver env (init w t0) in
  let ms := marks (trace (snd r)) in
  In s (navigations ms) ->
  (exists e, s = Rejected e) \/ s = Resolved None \/
  (exists resp, s = Resolved (Some resp) /\ 400 <= status resp) ->
  fst r = Exit 1 /\
  click_count ms = 0%nat /\
  reasons ms = [Keepalive.GENERIC_FAILURE] /\
  exists e, NavFailed s e /\ In (MErrorObj EmptyString e) ms.
Proof.
  destruct (Keepalive.main driver env (init w t0)) as [out st] eqn:E. cbn [fst snd].
  apply keepalive_run_shape in E.
  remember (marks (trace st)) as ms eqn:Hms. clear Hms.
  open_keepalive_run E; intros Hin Hs; cbn in Hin; try contradiction.
  all: destruct Hin as [<- | []].
  all: try (destruct Hs as [[e' Hs] | [Hs | [r' [Hs Hr']]]];
            inversion Hs; subst; exfalso; lia).
  all: split; [reflexivity|]; split; [reflexivity|]; split; [reflexivity|].
  all: eexists; split; [eassumption | cbn; tauto].
Qed.

(** X21. The search of [keepalive.js] clicks the element that the query just
    before returned, asks nothing of the page after a click, and asks for the
    frames only after the query of the page has found no button. *)
Theorem keepalive_search_order (startedAt : Z) (st : State W) :
  let r := Keepalive.session driver env startedAt st in
  exists d,
    trace (snd r) = trace st ++ d /\
    (forall pre el s post,
        asks d = pre ++ AClick el s :: post ->
        post = [] /\ exists ctx pre', pre = pre' ++ [AQuery ctx (Resolved (Some el))]) /\
    (forall pre s post,
        asks d = pre ++ AFrames s :: post ->
        pre = [AQuery CtxPage (Resolved None)]).
Proof.
  destruct (Keepalive.session driver env startedAt st) as [o st'] eqn:E. cbn [fst snd].
  destruct (spec_keepalive_session_asks driver env startedAt _ _ _ E)
    as [_ [_ [d [Ht Hk]]]].
  exists d. split; [exact Ht|].
  change (obs ask d) with (asks d) in Hk.
  destruct Hk as [Hv | [[o' [Hn Ha]] | [[e Hv] | [frames [o' [v [Hv Hs]]]]]]].
  - rewrite Hv. split; intros; destruct pre; discriminate.
  - split.
    + intros pre el s post Hv.
      destruct (Asked_click _ _ _ _ _ _ _ Ha Hv) as [-> ->].
      split; [reflexivity|]. exists CtxPage, []. reflexivity.
    + intros pre s post Hv. exfalso. apply (Asked_no_frames _ _ _ s Ha).
      rewrite Hv. apply in_or_app. right. now left.
  - rewrite Hv. split.
    + intros pre el s post H.
      destruct pre as [|a [|b pre]]; cbn in H; inversion H. destruct pre; discriminate.
    + intros pre s post H.
      destruct pre as [|a [|b pre]]; cbn in H; inversion H; subst; auto.
      destruct pre; discriminate.
  - rewrite Hv. split.
    + intros pre el s post H.
      destruct pre as [|a [|b pre]]; cbn in H; inversion H; subst.
      destruct (Swept_click _ _ _ _ _ _ _ Hs eq_refl) as [-> [ctx [pre' ->]]].
      split; [reflexivity|].
      exists ctx, (AQuery CtxPage (Resolved None) :: AFrames (Resolved frames) :: pre').
      reflexivity.
    + intros pre s post H.
      destruct pre as [|a [|b pre]]; cbn in H; inversion H; subst; auto.
      exfalso. apply (Swept_no_frames _ _ _ s Hs).
      apply in_or_app. right. now left.
Qed.

(** X22. The loop over the frames of [keepalive.js] stops at the first frame
    that has the button, or whose query or click fails: the frames before it
    are queried in order and have none, the frames after it are not queried,
    and a loop that returns false has queried every frame. *)
Theorem check_frames_stops_at_first_button (frames : list Frame) (st : State W) :
  let r := Keepalive.check_frames driver frames st in
  let miss := fun frame => AQuery (CtxFrame frame) (Resolved None) in
  exists d,
    trace (snd r) = trace st ++ d /\
    match fst r with
    | Val false => asks d = map miss frames
    | Val true =>
        exists before frame after el,
          frames = before ++ frame :: after /\
          asks d = map miss before
                     ++ [AQuery (CtxFrame frame) (Resolved (Some el)); AClick el (Resolved tt)]
    | Throw e =>
        exists before frame after,
          frames = before ++ frame :: after /\
          (asks d = map miss before ++ [AQuery (CtxFrame frame) (Rejected e)] \/
           exists el,
             asks d = map miss before
                        ++ [AQuery (CtxFrame frame) (Resolved (Some el));
                            AClick el (Rejected e)])
    | Exit _ => False
    | Spent => False
    end.
Proof.
  destruct (Keepalive.check_frames driver frames st) as [o st'] eqn:E. cbn [fst snd].
  destruct (spec_check_frames_asks driver frames _ _ _ E) as [_ [_ [d [Ht Hs]]]].
  exists d. split; [exact Ht|].
  exact (Swept_cases _ _ _ Hs).
Qed.

End KeepaliveProperties.

(** ** The properties with a premise, on concrete drivers *)

Lemma unconfigured_run_exits_before_launch_witness :
  let r := Retrying.main Worlds.awake Cases.env_without_url (init tt 0) in
  fst r = Exit 1 /\ launch_count (marks (trace (snd r))) = 0%nat.
Proof.
  intro r.
  destruct (unconfigured_run_exits_before_launch Worlds.awake Cases.env_without_url tt 0)
    as [Ho [Hl _]].
  - reflexivity.
  - exact (conj Ho Hl).
Defined.

Lemma failed_close_is_only_logged_witness :
  let r := Retrying.main Cases.stubborn Worlds.env (init tt 0) in
  fst r = Val tt /\ close_count (marks (trace (snd r))) = 1%nat.
Proof.
  intro r.
  apply (failed_close_is_only_logged Cases.stubborn Worlds.env tt 0
           (mkError "Error" "Target closed")).
  vm_compute. repeat first [left; reflexivity | right].
Defined.

Lemma locator_gives_up_only_at_deadline_witness :
  clock (init tt 0) + Retrying.WAKE_BUTTON_POLL_TIMEOUT_MS
  <= clock (snd (Retrying.findAndClickWakeButton Worlds.awake (init tt 0))).
Proof.
  apply (locator_gives_up_only_at_deadline Worlds.awake (init tt 0)
           (snd (Retrying.findAndClickWakeButton Worlds.awake (init tt 0)))).
  vm_compute. reflexivity.
Defined.

Lemma locator_clicks_only_actionable_witness :
  exists d,
    trace (snd (Retrying.findAndClickWakeButton Worlds.framed (init tt 0)))
    = trace (init tt 0) ++ d /\
    forall el, In (SClick el) (sights d) ->
      exists ctx l box inViewport,
        In (SProbe ctx l (Match el box inViewport)) (sights d) /\
        Retrying.actionable (Match el box inViewport) = true.
Proof.
  apply (locator_clicks_only_actionable Worlds.framed (init tt 0)
           (fst (Retrying.findAndClickWakeButton Worlds.framed (init tt 0)))
           (snd (Retrying.findAndClickWakeButton Worlds.framed (init tt 0)))).
  apply surjective_pairing.
Defined.

Lemma browser_closed_iff_success_witness :
  let r := Retrying.main Worlds.awake Worlds.env (init tt 0) in
  (fst r = Val tt /\ close_count (marks (trace (snd r))) = 1%nat) \/
  (fst r = Exit 1 /\ close_count (marks (trace (snd r))) = 0%nat).
Proof.
  intro r.
  apply (browser_closed_iff_success Worlds.awake Worlds.env tt 0 (fst r) (snd r)).
  apply surjective_pairing.
Defined.

Lemma readiness_failure_needs_a_throwing_wait_witness :
  let r := Retrying.main Cases.abrupt Worlds.env (init tt 0) in
  reasons (marks (trace (snd r))) = [Retrying.READY_FAILURE] /\
  click_count (marks (trace (snd r))) = 1%nat /\
  fst r = Exit 1 /\
  exists c w' e,
    is_wait c = true /\ fst (Cases.abrupt c w') = Throws e /\
    In (MErrorObj EmptyString e) (marks (trace (snd r))).
Proof.
  intro r. split; [vm_compute; reflexivity|]. split; [vm_compute; reflexivity|].
  apply (readiness_failure_needs_a_throwing_wait Cases.abrupt Worlds.env tt 0 (fst r) (snd r)).
  - apply surjective_pairing.
  - vm_compute. left. reflexivity.
Defined.

Lemma rejected_waits_are_swallowed_witness :
  let r := Retrying.main Worlds.persistent Worlds.env (init tt 0) in
  ~ In Retrying.READY_FAILURE (reasons (marks (trace (snd r)))).
Proof.
  intro r.
  apply (rejected_waits_are_swallowed Worlds.persistent Worlds.env tt 0 (fst r) (snd r)).
  - intros c w' Hc. destruct c; try discriminate Hc; eexists; reflexivity.
  - apply surjective_pairing.
Defined.

Lemma other_requery_errors_are_rethrown_witness :
  exists st4,
    Retrying.confirm Cases.broken Worlds.env 1
      (Retrying.mkClicked "main page" CtxPage) (mkState true 0 (Some tt) [])
    = (Throw Cases.protocol_error, st4).
Proof.
  edestruct (other_requery_errors_are_rethrown Cases.broken Worlds.env 1
               (Retrying.mkClicked "main page" CtxPage) (mkState true 0 (Some tt) []))
    as [_ [st4 [H _]]].
  - vm_compute. reflexivity.
  - vm_compute. reflexivity.
  - reflexivity.
  - vm_compute. reflexivity.
  - vm_compute. reflexivity.
  - exists st4. exact H.
Defined.

Lemma keepalive_message_tells_whether_clicked_witness :
  let r := Keepalive.main Worlds.persistent Worlds.env (init tt 0) in
  let ms := marks (trace (snd r)) in
  click_count ms = 1%nat /\
  exists t,
    success_messages ms = [Keepalive.succeeded_msg t (0 <? click_count ms)%nat].
Proof.
  intros r ms. split; [vm_compute; reflexivity|].
  apply (keepalive_message_tells_whether_clicked Worlds.persistent Worlds.env tt 0).
  vm_compute. reflexivity.
Defined.

Lemma keepalive_failed_navigation_exits_witness :
  let r := Keepalive.main Worlds.failing500 Worlds.env (init tt 0) in
  fst r = Exit 1 /\ click_count (marks (trace (snd r))) = 0%nat.
Proof.
  intro r.
  destruct (keepalive_failed_navigation_exits Worlds.failing500 Worlds.env tt 0
              (Resolved (Some (mkResponse 500 "Internal Server Error"))))
    as [Ho [Hc _]].
  - vm_compute. left. reflexivity.
  - right; right. eexists. split; [reflexivity | cbn; lia].
  - exact (conj Ho Hc).
Defined.

Lemma first_actionable_context_is_returned_witness :
  exists st',
    Retrying.findAndClickWakeButton Cases.second_frame (init tt 0)
    = (Val (Some (Retrying.mkClicked "frame [no URL]" (CtxFrame Worlds.frame_b))), st').
Proof.
  destruct (first_actionable_context_is_returned Cases.second_frame
              (fun c => fst (Cases.second_frame c tt))
              (fun c w => match w with tt => eq_refl end)
              (init tt 0) [Worlds.frame_a; Worlds.frame_b]
              [(CtxPage, "main page"%string);
               (CtxFrame Worlds.frame_a, "frame https://a.example/"%string)]
              []
              (CtxFrame Worlds.frame_b) "frame [no URL]"
              2%nat (Some Worlds.a_box) true)
    as [st' [H _]].
  - reflexivity.
  - reflexivity.
  - repeat constructor.
    + exists (Match 0%nat None false). split; reflexivity.
    + exists NoMatch. split; reflexivity.
  - reflexivity.
  - reflexivity.
  - reflexivity.
  - exists st'. exact H.
Defined.
